(** * Fixed-point power engine (solidity/python/Formula/Power)

    A shallow embedding of the Python emulation of the fixed-point
    [power] function and of its helpers, together with the properties
    stated about them.

    Python integers are unbounded, so every integer is a [Z] and no
    operation wraps.  The source is Python 2: [/] on integers is floor
    division and raises [ZeroDivisionError] on a zero divisor; [<<] and
    [>>] raise [ValueError] on a negative count; [assert] raises
    [AssertionError]. *)

From Stdlib Require Import ZArith List Bool Lia Reals Lra.
Import ListNotations.

Local Open Scope Z_scope.

(** ** Failures *)

(** One constructor per [assert] statement of the source. *)
Inductive assert_site : Type :=
| ln_ratio            (* ln:            assert(_denominator <= _numerator)            *)
| ln_nonzero          (* ln:            assert(_denominator != 0 and _numerator != 0) *)
| ln_numerator_max    (* ln:            assert(_numerator < MAX_VAL)                  *)
| ln_denominator_max  (* ln:            assert(_denominator < MAX_VAL)                *)
| lnUpperBound32_base (* lnUpperBound32: assert(_baseN > _baseD)                      *)
| fixedLoge_one       (* fixedLoge:     assert(_x >= ONE << _precision)               *)
| fixedLog2_one       (* fixedLog2:     assert(_x >= fixedOne)                        *)
| fixedExp_max        (* fixedExp:      assert(_x <= maxExp)                          *)
| safeMul_256.        (* safeMul:       assert(x * y < (1 << 256))                    *)

Inductive exn : Type :=
| AssertionError (site : assert_site)
| ZeroDivisionError
| ValueError           (* negative shift count *)
| LoopFuelExhausted.   (* not a Python exception: the bound given to the
                          [while] loop of fixedLog2 was used up; shown
                          unreachable in [fixedLog2_fuel_adequate] *)

Inductive result (A : Type) : Type :=
| Ok (a : A)
| Raise (e : exn).
Arguments Ok {A} a.
Arguments Raise {A} e.

Definition bind {A B : Type} (m : result A) (k : A -> result B) : result B :=
  match m with
  | Ok a => k a
  | Raise e => Raise e
  end.

Notation "x <- m ;; k" := (bind m (fun x => k))
  (at level 61, m at next level, right associativity).
Notation "m ;;; k" := (bind m (fun _ => k))
  (at level 61, right associativity).

Definition assert (site : assert_site) (b : bool) : result unit :=
  if b then Ok tt else Raise (AssertionError site).

(** The two kinds of failure the documentation distinguishes, and the kind
    each assertion of the source belongs to. *)
Inductive error_kind : Type := DomainError | OverflowError.

Definition kind_of (s : assert_site) : error_kind :=
  match s with
  | fixedExp_max | safeMul_256 => OverflowError
  | _ => DomainError
  end.

Definition fails_with {A : Type} (k : error_kind) (r : result A) : Prop :=
  exists s, r = Raise (AssertionError s) /\ kind_of s = k.

Definition succeeds {A : Type} (r : result A) : Prop :=
  exists v, r = Ok v.

(** ** Integer primitives *)

Definition div (a b : Z) : result Z :=
  if b =? 0 then Raise ZeroDivisionError else Ok (a / b).

Definition shl (a n : Z) : result Z :=
  if n <? 0 then Raise ValueError else Ok (Z.shiftl a n).

Definition shr (a n : Z) : result Z :=
  if n <? 0 then Raise ValueError else Ok (Z.shiftr a n).

(** [range(start, stop, step)] for a positive [step]. *)
Definition range3 (start stop step : Z) : list Z :=
  map (fun i => start + step * Z.of_nat i)
      (seq 0 (Z.to_nat ((stop - start + step - 1) / step))).

Definition range (stop : Z) : list Z := range3 0 stop 1.

(** ** The module *)

Definition ONE : Z := 1.
Definition TWO : Z := 2.
Definition MAX_FIXED_EXP_32 : Z := 0x386bfdba29.

(** *** floorLog2 *)

Definition floorLog2_step (acc : Z * Z) (s : Z) : Z * Z :=
  let '(_n, t) := acc in
  if _n >=? Z.shiftl ONE s then (Z.shiftr _n s, Z.lor t s) else (_n, t).

Definition floorLog2 (_n : Z) : Z :=
  snd (fold_left floorLog2_step
         (map (fun k => Z.shiftl 1 (8 - 1 - k)) (range 8)) (_n, 0)).

(** *** lnUpperBound32 *)

Definition lnUpperBound32 (_baseN _baseD : Z) : result Z :=
  assert lnUpperBound32_base (_baseN >? _baseD) ;;;
  let scaledBaseN := _baseN * 100000 in
  if scaledBaseN <=? _baseD * 271828 then Ok (Z.shiftl 1 32)
  else if scaledBaseN <=? _baseD * 738905 then Ok (Z.shiftl 2 32)
  else if scaledBaseN <=? _baseD * 2008553 then Ok (Z.shiftl 3 32)
  else
    q <- div (_baseN - 1) _baseD ;;
    Ok ((floorLog2 q + 1) * 0xb17217f8).

(** *** calculateBestPrecision *)

(** The [for ... break ... else] loop: [Some precision] when the loop
    breaks at [precision], [None] when it runs to the end. *)
Fixpoint bestPrecision_loop (ps : list Z) (maxExp maxVal _expD : Z)
  : result (option Z) :=
  match ps with
  | [] => Ok None
  | precision :: ps' =>
      v <- shl maxVal precision ;;
      q <- div v _expD ;;
      if maxExp <? q then Ok (Some precision)
      else bestPrecision_loop ps'
             (Z.shiftr (maxExp * 0xeb5ec5975959c565) (64 - 2)) maxVal _expD
  end.

Definition calculateBestPrecision (_baseN _baseD _expN _expD : Z) : result Z :=
  let maxExp := MAX_FIXED_EXP_32 in
  ub <- lnUpperBound32 _baseN _baseD ;;
  let maxVal := ub * _expN in
  r <- bestPrecision_loop (range3 0 32 2) maxExp maxVal _expD ;;
  match r with
  | None => Ok (64 - 2)
  | Some precision =>
      if precision =? 0 then Ok 32 else Ok (precision + 32 - 2)
  end.

(** *** fixedLog2 *)

(** [while (_x >= fixedTwo): _x >>= 1; hi += fixedOne], run for at most
    [fuel] iterations. *)
Fixpoint halving_loop (fuel : nat) (fixedOne fixedTwo _x hi : Z)
  : result (Z * Z) :=
  if _x >=? fixedTwo then
    match fuel with
    | O => Raise LoopFuelExhausted
    | S fuel' => halving_loop fuel' fixedOne fixedTwo (Z.shiftr _x 1) (hi + fixedOne)
    end
  else Ok (_x, hi).

(** [for i in range(_precision): ...] *)
Fixpoint squaring_loop (idx : list Z) (_precision fixedOne fixedTwo _x hi : Z)
  : result (Z * Z) :=
  match idx with
  | [] => Ok (_x, hi)
  | i :: idx' =>
      _x <- div (_x * _x) fixedOne ;;
      if _x >=? fixedTwo then
        b <- shl ONE (_precision - 1 - i) ;;
        squaring_loop idx' _precision fixedOne fixedTwo (Z.shiftr _x 1) (hi + b)
      else
        squaring_loop idx' _precision fixedOne fixedTwo _x hi
  end.

Definition fixedLog2 (_x _precision : Z) : result Z :=
  fixedOne <- shl ONE _precision ;;
  fixedTwo <- shl TWO _precision ;;
  assert fixedLog2_one (_x >=? fixedOne) ;;;
  let hi := 0 in
  st <- halving_loop (S (Z.to_nat (Z.log2 _x))) fixedOne fixedTwo _x hi ;;
  let '(_x, hi) := st in
  st <- squaring_loop (range _precision) _precision fixedOne fixedTwo _x hi ;;
  let '(_x, hi) := st in
  Ok hi.

(** *** fixedLoge *)

Definition fixedLoge (_x _precision : Z) : result Z :=
  one <- shl ONE _precision ;;
  assert fixedLoge_one (_x >=? one) ;;;
  log2 <- fixedLog2 _x _precision ;;
  Ok (Z.shiftr (log2 * 0xb17217f7d1cf78) 56).

(** *** ln *)

Definition ln (_numerator _denominator _precision : Z) : result Z :=
  assert ln_ratio (_denominator <=? _numerator) ;;;
  assert ln_nonzero (negb (_denominator =? 0) && negb (_numerator =? 0)) ;;;
  MAX_VAL <- shl ONE (256 - _precision) ;;
  assert ln_numerator_max (_numerator <? MAX_VAL) ;;;
  assert ln_denominator_max (_denominator <? MAX_VAL) ;;;
  n <- shl _numerator _precision ;;
  x <- div n _denominator ;;
  fixedLoge x _precision.

(** *** fixedExpUnsafe and fixedExp *)

Definition fixedExpUnsafe (_x _precision : Z) : result Z :=
  let xi := _x in
  res <- shl 0xde1bc4d19efcac82445da75b00000000 _precision ;;

  let res := res + xi * 0xde1bc4d19efcac82445da75b00000000 in
  xi <- shr (xi * _x) _precision ;;
  let res := res + xi * 0x6f0de268cf7e5641222ed3ad80000000 in
  xi <- shr (xi * _x) _precision ;;
  let res := res + xi * 0x2504a0cd9a7f7215b60f9be480000000 in
  xi <- shr (xi * _x) _precision ;;
  let res := res + xi * 0x9412833669fdc856d83e6f920000000 in
  xi <- shr (xi * _x) _precision ;;
  let res := res + xi * 0x1d9d4d714865f4de2b3fafea0000000 in
  xi <- shr (xi * _x) _precision ;;
  let res := res + xi * 0x4ef8ce836bba8cfb1dff2a70000000 in
  xi <- shr (xi * _x) _precision ;;
  let res := res + xi * 0xb481d807d1aa66d04490610000000 in
  xi <- shr (xi * _x) _precision ;;
  let res := res + xi * 0x16903b00fa354cda08920c2000000 in
  xi <- shr (xi * _x) _precision ;;
  let res := res + xi * 0x281cdaac677b334ab9e732000000 in
  xi <- shr (xi * _x) _precision ;;
  let res := res + xi * 0x402e2aad725eb8778fd85000000 in
  xi <- shr (xi * _x) _precision ;;
  let res := res + xi * 0x5d5a6c9f31fe2396a2af000000 in
  xi <- shr (xi * _x) _precision ;;
  let res := res + xi * 0x7c7890d442a82f73839400000 in
  xi <- shr (xi * _x) _precision ;;
  let res := res + xi * 0x9931ed54034526b58e400000 in
  xi <- shr (xi * _x) _precision ;;
  let res := res + xi * 0xaf147cf24ce150cf7e00000 in
  xi <- shr (xi * _x) _precision ;;
  let res := res + xi * 0xbac08546b867cdaa200000 in
  xi <- shr (xi * _x) _precision ;;
  let res := res + xi * 0xbac08546b867cdaa20000 in
  xi <- shr (xi * _x) _precision ;;
  let res := res + xi * 0xafc441338061b2820000 in
  xi <- shr (xi * _x) _precision ;;
  let res := res + xi * 0x9c3cabbc0056d790000 in
  xi <- shr (xi * _x) _precision ;;
  let res := res + xi * 0x839168328705c30000 in
  xi <- shr (xi * _x) _precision ;;
  let res := res + xi * 0x694120286c049c000 in
  xi <- shr (xi * _x) _precision ;;
  let res := res + xi * 0x50319e98b3d2c000 in
  xi <- shr (xi * _x) _precision ;;
  let res := res + xi * 0x3a52a1e36b82000 in
  xi <- shr (xi * _x) _precision ;;
  let res := res + xi * 0x289286e0fce000 in
  xi <- shr (xi * _x) _precision ;;
  let res := res + xi * 0x1b0c59eb53400 in
  xi <- shr (xi * _x) _precision ;;
  let res := res + xi * 0x114f95b55400 in
  xi <- shr (xi * _x) _precision ;;
  let res := res + xi * 0xaa7210d200 in
  xi <- shr (xi * _x) _precision ;;
  let res := res + xi * 0x650139600 in
  xi <- shr (xi * _x) _precision ;;
  let res := res + xi * 0x39b78e80 in
  xi <- shr (xi * _x) _precision ;;
  let res := res + xi * 0x1fd8080 in
  xi <- shr (xi * _x) _precision ;;
  let res := res + xi * 0x10fbc0 in
  xi <- shr (xi * _x) _precision ;;
  let res := res + xi * 0x8c40 in
  xi <- shr (xi * _x) _precision ;;
  let res := res + xi * 0x462 in
  xi <- shr (xi * _x) _precision ;;
  let res := res + xi * 0x22 in

  div res 0xde1bc4d19efcac82445da75b00000000.

(** The bound [fixedExp] computes before its assertion. *)
Definition fixedExp_maxExp (_precision : Z) : Z :=
  fold_left (fun maxExp p => Z.shiftr (maxExp * 0xeb5ec5975959c565) (64 - 2))
            (range3 32 _precision 2) MAX_FIXED_EXP_32.

Definition fixedExp (_x _precision : Z) : result Z :=
  let maxExp := fixedExp_maxExp _precision in
  assert fixedExp_max (_x <=? maxExp) ;;;
  fixedExpUnsafe _x _precision.

(** *** safeMul *)

Definition safeMul (x y : Z) : result Z :=
  assert safeMul_256 (x * y <? Z.shiftl 1 256) ;;;
  Ok (x * y).

(** *** power *)

Definition power (_baseN _baseD _expN _expD _precision : Z) : result Z :=
  logbase <- ln _baseN _baseD _precision ;;
  m <- safeMul logbase _expN ;;
  e <- div m _expD ;;
  fixedExp e _precision.

(** ** Definitions used by the analysis *)

(** The values [fixedExpUnsafe] computes on its way, for the analysis of
    their width: the coefficients that follow the leading one, in the order
    of the source, and a run of the same statements that also records every
    product [xi * _x], every term [xi * coefficient] and every partial sum
    [res] (most recent first). *)
Definition fixedExpUnsafe_leading : Z := 0xde1bc4d19efcac82445da75b00000000.

Definition fixedExpUnsafe_coefficients : list Z :=
  [ 0x6f0de268cf7e5641222ed3ad80000000;
    0x2504a0cd9a7f7215b60f9be480000000;
    0x9412833669fdc856d83e6f920000000;
    0x1d9d4d714865f4de2b3fafea0000000;
    0x4ef8ce836bba8cfb1dff2a70000000;
    0xb481d807d1aa66d04490610000000;
    0x16903b00fa354cda08920c2000000;
    0x281cdaac677b334ab9e732000000;
    0x402e2aad725eb8778fd85000000;
    0x5d5a6c9f31fe2396a2af000000;
    0x7c7890d442a82f73839400000;
    0x9931ed54034526b58e400000;
    0xaf147cf24ce150cf7e00000;
    0xbac08546b867cdaa200000;
    0xbac08546b867cdaa20000;
    0xafc441338061b2820000;
    0x9c3cabbc0056d790000;
    0x839168328705c30000;
    0x694120286c049c000;
    0x50319e98b3d2c000;
    0x3a52a1e36b82000;
    0x289286e0fce000;
    0x1b0c59eb53400;
    0x114f95b55400;
    0xaa7210d200;
    0x650139600;
    0x39b78e80;
    0x1fd8080;
    0x10fbc0;
    0x8c40;
    0x462;
    0x22 ].

Definition series_step (_x _precision : Z) (st : Z * Z * list Z) (c : Z)
  : Z * Z * list Z :=
  let '(xi, res, seen) := st in
  let prod := xi * _x in
  let xi := Z.shiftr prod _precision in
  let term := xi * c in
  let res := res + term in
  (xi, res, res :: term :: prod :: seen).

Definition series_start (_x _precision : Z) : Z * Z * list Z :=
  let xi := _x in
  let res := Z.shiftl fixedExpUnsafe_leading _precision in
  let term := xi * fixedExpUnsafe_leading in
  (xi, res + term, [res + term; term; res]).

Definition series_run (_x _precision : Z) : Z * Z * list Z :=
  fold_left (series_step _x _precision) fixedExpUnsafe_coefficients
            (series_start _x _precision).

Definition fixedExpUnsafe_values (_x _precision : Z) : list Z :=
  snd (series_run _x _precision).

(** Pointwise order on the states of [series_run], for the monotonicity of
    [fixedExpUnsafe] in its argument. *)
Definition below (a b : Z) : Prop := 0 <= a <= b.

Definition series_le (s1 s2 : Z * Z * list Z) : Prop :=
  below (fst (fst s1)) (fst (fst s2)) /\
  below (snd (fst s1)) (snd (fst s2)) /\
  Forall2 below (snd s1) (snd s2).

(** Certified lower bounds of the exponential: [(1 + x / 2^m)^(2^m)],
    computed in fixed point at scale [2^P] by [m] squarings that round down. *)
Fixpoint square_down (P : Z) (m : nat) (a : Z) : Z :=
  match m with
  | O => a
  | S m' => square_down P m' (a * a / 2 ^ P)
  end.

Definition exp_lower (P : Z) (m : nat) (xn xd : Z) : Z :=
  square_down P m (2 ^ P + xn * 2 ^ P / (xd * 2 ^ Z.of_nat m)).

(** Certified lower bounds of [exp (- x)]: [(1 - x / 2^m)^(2^m)], with the
    first factor rounded down. *)
Definition exp_neg_lower (P : Z) (m : nat) (xn xd : Z) : Z :=
  square_down P m (2 ^ P - (xn * 2 ^ P / (xd * 2 ^ Z.of_nat m) + 1)).

(** ** Basic facts about the primitives *)

Lemma bind_Ok {A B : Type} (a : A) (k : A -> result B) : bind (Ok a) k = k a.
Proof. reflexivity. Qed.

Lemma shl_nonneg (a n : Z) : 0 <= n -> shl a n = Ok (a * 2 ^ n).
Proof.
  intros Hn. unfold shl.
  destruct (Z.ltb_spec n 0) as [Hlt | _]; [lia |].
  now rewrite Z.shiftl_mul_pow2.
Qed.

Lemma shr_nonneg (a n : Z) : 0 <= n -> shr a n = Ok (a / 2 ^ n).
Proof.
  intros Hn. unfold shr.
  destruct (Z.ltb_spec n 0) as [Hlt | _]; [lia |].
  now rewrite Z.shiftr_div_pow2.
Qed.

Lemma div_nonzero (a b : Z) : b <> 0 -> div a b = Ok (a / b).
Proof.
  intros Hb. unfold div.
  now destruct (Z.eqb_spec b 0).
Qed.

Lemma assert_true (s : assert_site) (b : bool) : b = true -> assert s b = Ok tt.
Proof. now intros ->. Qed.

Lemma assert_false (s : assert_site) (b : bool) :
  b = false -> assert s b = Raise (AssertionError s).
Proof. now intros ->. Qed.

Lemma in_range3 (start stop step i : Z) :
  0 < step -> In i (range3 start stop step) -> start <= i < stop.
Proof.
  intros Hstep Hin. unfold range3 in Hin.
  apply in_map_iff in Hin. destruct Hin as [k [<- Hk]].
  apply in_seq in Hk.
  assert (Hk' : Z.of_nat k < (stop - start + step - 1) / step) by lia.
  assert (Hmul : step * ((stop - start + step - 1) / step) <= stop - start + step - 1)
    by (apply Z.mul_div_le; lia).
  nia.
Qed.

(** ** safeMul *)

(** C3.  For all integers [x] and [y] (in particular for every pair of
    unsigned integers) [safeMul x y] fails with an [OverflowError] exactly
    when the mathematical product [x * y] is at least [2^256], and returns
    exactly [x * y] otherwise. *)
Theorem safeMul_overflow_iff (x y : Z) :
  (fails_with OverflowError (safeMul x y) <-> 2 ^ 256 <= x * y) /\
  safeMul x y = (if x * y <? 2 ^ 256 then Ok (x * y)
                 else Raise (AssertionError safeMul_256)).
Proof.
  assert (Heq : safeMul x y = (if x * y <? 2 ^ 256 then Ok (x * y)
                               else Raise (AssertionError safeMul_256))).
  { unfold safeMul. rewrite Z.shiftl_1_l.
    now destruct (x * y <? 2 ^ 256). }
  split; [| exact Heq].
  rewrite Heq. destruct (Z.ltb_spec (x * y) (2 ^ 256)) as [Hlt | Hge].
  - split.
    + intros [s [H _]]. discriminate.
    + lia.
  - split; [intros _; exact Hge |].
    intros _. exists safeMul_256. now split.
Qed.

(** ** ln: rejected inputs *)

(** C7.  Whatever the precision, [ln numerator denominator precision]
    fails with a [DomainError] as soon as [denominator > numerator], or
    [numerator = 0], or [denominator = 0]. *)
Theorem ln_domain_error (numerator denominator precision : Z) :
  denominator > numerator \/ numerator = 0 \/ denominator = 0 ->
  fails_with DomainError (ln numerator denominator precision).
Proof.
  intros H. unfold ln.
  destruct (Z.leb_spec denominator numerator) as [Hle | Hgt].
  - assert (Hz : negb (denominator =? 0) && negb (numerator =? 0) = false).
    { destruct H as [H | [-> | ->]]; [lia | |].
      - now rewrite andb_false_r.
      - reflexivity. }
    cbn [assert bind]. rewrite Hz. cbn [assert bind].
    exists ln_nonzero. now split.
  - exists ln_ratio. now split.
Qed.

Lemma ln_domain_error_witness :
  fails_with DomainError (ln 1 2 32) /\
  fails_with DomainError (ln 0 0 32) /\
  fails_with DomainError (ln 5 0 32).
Proof.
  split; [| split].
  - apply (ln_domain_error 1 2 32). left. reflexivity.
  - apply (ln_domain_error 0 0 32). right. left. reflexivity.
  - apply (ln_domain_error 5 0 32). right. right. reflexivity.
Defined.

(** ** floorLog2 *)

Lemma lor_above_pow2 (q j : Z) :
  0 <= j -> Z.lor (q * 2 ^ (j + 1)) (2 ^ j) = q * 2 ^ (j + 1) + 2 ^ j.
Proof.
  intros Hj.
  assert (Hland : Z.land (q * 2 ^ (j + 1)) (2 ^ j) = 0).
  { apply Z.bits_inj'. intros i Hi.
    rewrite Z.land_spec, Z.bits_0, (Z.pow2_bits_eqb j i Hj).
    destruct (Z.eqb_spec j i) as [<- | _].
    - rewrite Z.mul_pow2_bits_low by lia. reflexivity.
    - apply andb_false_r. }
  rewrite (Z.add_nocarry_lxor _ _ Hland).
  symmetry. now apply Z.lxor_lor.
Qed.

(** One probe of the loop, at shift amount [2^j]: the quotient of the
    original number by [2^t] is kept in [_n], and the window it lies in
    shrinks from [2^(2^(j+1))] to [2^(2^j)]. *)
Lemma floorLog2_step_spec (j n0 _n t q : Z) :
  0 <= j -> 0 <= q -> t = q * 2 ^ (j + 1) ->
  _n = n0 / 2 ^ t -> 1 <= _n < 2 ^ (2 ^ (j + 1)) ->
  exists q' n' t',
    floorLog2_step (_n, t) (2 ^ j) = (n', t') /\
    0 <= q' /\ t' = q' * 2 ^ j /\ n' = n0 / 2 ^ t' /\ 1 <= n' < 2 ^ (2 ^ j).
Proof.
  intros Hj Hq Ht Hn Hrange.
  assert (Hs : 0 < 2 ^ j) by (apply Z.pow_pos_nonneg; lia).
  assert (Hps : 0 < 2 ^ (2 ^ j)) by (apply Z.pow_pos_nonneg; lia).
  assert (Hdouble : 2 ^ (2 ^ (j + 1)) = 2 ^ (2 ^ j) * 2 ^ (2 ^ j)).
  { rewrite <- Z.pow_add_r by lia. f_equal. rewrite Z.pow_add_r by lia. lia. }
  assert (Hjj : 2 ^ (j + 1) = 2 * 2 ^ j) by (rewrite Z.pow_add_r by lia; lia).
  unfold floorLog2_step, ONE. rewrite Z.shiftl_1_l.
  destruct (Z.geb_spec _n (2 ^ (2 ^ j))) as [Hge | Hlt].
  - exists (2 * q + 1), (Z.shiftr _n (2 ^ j)), (Z.lor t (2 ^ j)).
    assert (Ht' : Z.lor t (2 ^ j) = (2 * q + 1) * 2 ^ j).
    { rewrite Ht, lor_above_pow2 by exact Hj. lia. }
    split; [reflexivity |]. split; [lia |]. split; [exact Ht' |].
    rewrite Z.shiftr_div_pow2 by lia.
    split.
    + rewrite Hn, Z.div_div by (try apply Z.pow_nonzero; nia).
      rewrite <- Z.pow_add_r by nia. f_equal. f_equal. lia.
    + split.
      * apply Z.div_le_lower_bound; lia.
      * apply Z.div_lt_upper_bound; lia.
  - exists (2 * q), _n, t.
    split; [reflexivity |]. split; [lia |]. split; [lia |].
    split; [exact Hn | lia].
Qed.

Lemma floorLog2_fold_spec (n0 : Z) (m : nat) :
  forall _n t q,
    0 <= q -> t = q * 2 ^ Z.of_nat m ->
    _n = n0 / 2 ^ t -> 1 <= _n < 2 ^ (2 ^ Z.of_nat m) ->
    exists t',
      fold_left floorLog2_step
        (map (fun k => 2 ^ Z.of_nat k) (rev (seq 0 m))) (_n, t) = (1, t') /\
      0 <= t' /\ n0 / 2 ^ t' = 1.
Proof.
  induction m as [| m IH]; intros _n t q Hq Ht Hn Hrange.
  - exists t. cbn [seq rev map fold_left].
    change (2 ^ (2 ^ Z.of_nat 0)) with 2 in Hrange.
    assert (Hone : _n = 1) by lia.
    split; [now rewrite Hone |]. split; [| now rewrite <- Hn].
    rewrite Ht. change (2 ^ Z.of_nat 0) with 1. lia.
  - rewrite seq_S, rev_app_distr. cbn [rev app map fold_left Nat.add].
    replace (Z.of_nat (S m)) with (Z.of_nat m + 1) in Ht, Hrange by lia.
    destruct (floorLog2_step_spec (Z.of_nat m) n0 _n t q)
      as [q' [n' [t' [Hstep [Hq' [Ht' [Hn' Hrange']]]]]]];
      try assumption; try lia.
    rewrite Hstep. now apply (IH n' t' q').
Qed.

(** On its whole intended domain, the non-zero 256-bit numbers, [floorLog2]
    is the floor of the binary logarithm. *)
Lemma floorLog2_log2 (n : Z) : 1 <= n < 2 ^ 256 -> floorLog2 n = Z.log2 n.
Proof.
  intros Hn. unfold floorLog2.
  change (map (fun k => Z.shiftl 1 (8 - 1 - k)) (range 8))
    with (map (fun k => 2 ^ Z.of_nat k) (rev (seq 0 8))).
  assert (Hfold : exists t,
             fold_left floorLog2_step
               (map (fun k => 2 ^ Z.of_nat k) (rev (seq 0 8))) (n, 0) = (1, t) /\
             0 <= t /\ n / 2 ^ t = 1).
  { apply (floorLog2_fold_spec n 8 n 0 0).
    - lia.
    - reflexivity.
    - now rewrite Z.div_1_r.
    - exact Hn. }
  destruct Hfold as [t [Hfold [Ht Hone]]].
  rewrite Hfold. cbn [snd]. symmetry.
  assert (Hp : 0 < 2 ^ t) by (apply Z.pow_pos_nonneg; lia).
  apply Z.log2_unique; [exact Ht |].
  rewrite Z.pow_succ_r by exact Ht.
  pose proof (Z.div_mod n (2 ^ t)) as Hdm.
  pose proof (Z.mod_pos_bound n (2 ^ t) Hp) as Hmod.
  lia.
Qed.

(** C8 (as amended).  [floorLog2 (2^k) = k] for every [k] in [[0, 255]],
    and [floorLog2 (2^k + 1) = k] for every [k] with [1 <= k < 255]. *)
Theorem floorLog2_pow2 (k : Z) :
  (0 <= k <= 255 -> floorLog2 (2 ^ k) = k) /\
  (1 <= k < 255 -> floorLog2 (2 ^ k + 1) = k).
Proof.
  split; intros Hk.
  - assert (Hlt : 2 ^ k < 2 ^ 256) by (apply Z.pow_lt_mono_r; lia).
    assert (Hpos : 0 < 2 ^ k) by (apply Z.pow_pos_nonneg; lia).
    rewrite floorLog2_log2 by lia.
    apply Z.log2_pow2. lia.
  - assert (Hlt : 2 ^ k < 2 ^ 255) by (apply Z.pow_lt_mono_r; lia).
    assert (Hge : 2 ^ 1 <= 2 ^ k) by (apply Z.pow_le_mono_r; lia).
    change (2 ^ 1) with 2 in Hge.
    rewrite floorLog2_log2 by (change (2 ^ 256) with (2 * 2 ^ 255); lia).
    apply Z.log2_unique; [lia |].
    rewrite Z.pow_succ_r by lia. lia.
Qed.

Lemma floorLog2_pow2_witness :
  floorLog2 (2 ^ 255) = 255 /\ floorLog2 (2 ^ 254 + 1) = 254.
Proof.
  split.
  - apply (proj1 (floorLog2_pow2 255)). lia.
  - apply (proj2 (floorLog2_pow2 254)). lia.
Defined.

(** C8 as first stated fails at [k = 0]: [2^0 + 1 = 2], whose binary
    logarithm is [1]. *)
Lemma floorLog2_pow2_succ_at_zero :
  0 <= 0 < 255 /\ floorLog2 (2 ^ 0 + 1) <> 0.
Proof.
  split; [lia |]. vm_compute. discriminate.
Qed.

(** ** fixedExp *)

Lemma fixedExp_maxExp_32 : fixedExp_maxExp 32 = MAX_FIXED_EXP_32.
Proof. reflexivity. Qed.

Lemma fixedExp_maxExp_nonneg (_precision : Z) : 0 <= fixedExp_maxExp _precision.
Proof.
  unfold fixedExp_maxExp.
  assert (Hfold : forall (l : list Z) (m : Z), 0 <= m ->
            0 <= fold_left
                   (fun maxExp _ => Z.shiftr (maxExp * 0xeb5ec5975959c565) (64 - 2))
                   l m).
  { induction l as [| p l IH]; intros m Hm; cbn [fold_left]; [exact Hm |].
    apply IH. apply Z.shiftr_nonneg. lia. }
  apply Hfold. unfold MAX_FIXED_EXP_32. lia.
Qed.

Lemma shr_zero (n : Z) : 0 <= n -> shr 0 n = Ok 0.
Proof.
  intros Hn. rewrite shr_nonneg by exact Hn.
  now rewrite Z.div_0_l by (apply Z.pow_nonzero; lia).
Qed.

Lemma mul_div_cancel_l (c a : Z) : c <> 0 -> c * a / c = a.
Proof. intros Hc. rewrite Z.mul_comm. now apply Z.div_mul. Qed.

(** With [_x = 0] every power term of the series vanishes and only the
    leading coefficient, shifted by the precision, is left. *)
Lemma fixedExpUnsafe_zero (_precision : Z) :
  0 <= _precision -> fixedExpUnsafe 0 _precision = Ok (2 ^ _precision).
Proof.
  intros Hp. unfold fixedExpUnsafe. cbv zeta.
  rewrite shl_nonneg by exact Hp. rewrite bind_Ok.
  repeat (rewrite ?Z.mul_0_l, ?(shr_zero _ Hp), ?Z.add_0_r, ?bind_Ok).
  rewrite div_nonzero by lia.
  f_equal. apply mul_div_cancel_l. lia.
Qed.

(** C2.  At precision 32, [fixedExp] fails with an [OverflowError] for every
    [x] above [MAX_FIXED_EXP_32 = 0x386bfdba29], and returns a value at
    [x = MAX_FIXED_EXP_32]. *)
Theorem fixedExp_32_limit :
  MAX_FIXED_EXP_32 = 0x386bfdba29 /\
  (forall x, x > MAX_FIXED_EXP_32 -> fails_with OverflowError (fixedExp x 32)) /\
  succeeds (fixedExp MAX_FIXED_EXP_32 32).
Proof.
  split; [reflexivity |]. split.
  - intros x Hx. unfold fixedExp. rewrite fixedExp_maxExp_32.
    rewrite assert_false by lia. cbn [bind].
    exists fixedExp_max. now split.
  - eexists. vm_compute. reflexivity.
Qed.

Lemma fixedExp_32_limit_witness :
  fails_with OverflowError (fixedExp 242329958954 32).
Proof.
  apply (proj1 (proj2 fixedExp_32_limit) 242329958954). reflexivity.
Defined.

(** ** fixedLog2: the loops run to completion *)

Lemma range_seq (stop : Z) : range stop = map Z.of_nat (seq 0 (Z.to_nat stop)).
Proof.
  unfold range, range3.
  replace ((stop - 0 + 1 - 1) / 1) with stop by (rewrite Z.div_1_r; lia).
  apply map_ext. intros i. lia.
Qed.

(** The [while] loop halves [_x] until it drops below [fixedTwo]; it needs
    no more iterations than [_x] has bits. *)
Lemma halving_loop_terminates (fixedOne : Z) (fuel : nat) :
  0 < fixedOne ->
  forall _x hi,
    fixedOne <= _x -> _x < 2 ^ Z.of_nat fuel ->
    exists x' hi',
      halving_loop fuel fixedOne (2 * fixedOne) _x hi = Ok (x', hi') /\
      fixedOne <= x' < 2 * fixedOne /\ hi <= hi'.
Proof.
  intros HF. induction fuel as [| fuel IH]; intros _x hi Hlo Hhi;
    cbn [halving_loop]; destruct (Z.geb_spec _x (2 * fixedOne)) as [Hge | Hlt].
  - change (2 ^ Z.of_nat 0) with 1 in Hhi. lia.
  - exists _x, hi. repeat split; lia.
  - rewrite Nat2Z.inj_succ, Z.pow_succ_r in Hhi by lia.
    rewrite Z.shiftr_div_pow2 by lia. change (2 ^ 1) with 2.
    destruct (IH (_x / 2) (hi + fixedOne)) as [x' [hi' [Hrun [Hx' Hhi']]]].
    + apply Z.div_le_lower_bound; lia.
    + apply Z.div_lt_upper_bound; lia.
    + exists x', hi'. repeat split; try lia. exact Hrun.
  - exists _x, hi. repeat split; lia.
Qed.

Lemma log2_fuel (x : Z) : x < 2 ^ Z.of_nat (S (Z.to_nat (Z.log2 x))).
Proof.
  rewrite Nat2Z.inj_succ, Z2Nat.id by apply Z.log2_nonneg.
  destruct (Z.lt_ge_cases 0 x) as [Hpos | Hnonpos].
  - apply Z.log2_spec. exact Hpos.
  - assert (H0 : 0 < 2 ^ Z.succ (Z.log2 x)).
    { apply Z.pow_pos_nonneg; [lia |]. pose proof (Z.log2_nonneg x). lia. }
    lia.
Qed.

(** The [for] loop of [fixedLog2] keeps [_x] in [[fixedOne, fixedTwo)], so
    neither its division nor its shift can fail. *)
Lemma squaring_loop_runs (_precision : Z) (n : nat) :
  0 <= _precision ->
  forall (a : nat) _x hi,
    (a + n = Z.to_nat _precision)%nat ->
    2 ^ _precision <= _x < 2 * 2 ^ _precision ->
    exists x' hi',
      squaring_loop (map Z.of_nat (seq a n)) _precision
        (2 ^ _precision) (2 * 2 ^ _precision) _x hi = Ok (x', hi') /\
      2 ^ _precision <= x' < 2 * 2 ^ _precision /\ hi <= hi'.
Proof.
  intros Hp.
  assert (HF : 0 < 2 ^ _precision) by (apply Z.pow_pos_nonneg; lia).
  induction n as [| n IH]; intros a _x hi Han Hx; cbn [seq map squaring_loop].
  - exists _x, hi. repeat split; lia.
  - rewrite div_nonzero by lia. rewrite bind_Ok.
    assert (Hsq_lo : 2 ^ _precision <= _x * _x / 2 ^ _precision)
      by (apply Z.div_le_lower_bound; nia).
    assert (Hsq_hi : _x * _x / 2 ^ _precision < 4 * 2 ^ _precision)
      by (apply Z.div_lt_upper_bound; nia).
    destruct (Z.geb_spec (_x * _x / 2 ^ _precision) (2 * 2 ^ _precision))
      as [Hge | Hlt].
    + rewrite shl_nonneg by lia. rewrite bind_Ok.
      rewrite Z.shiftr_div_pow2 by lia. change (2 ^ 1) with 2.
      destruct (IH (S a) (_x * _x / 2 ^ _precision / 2)
                   (hi + ONE * 2 ^ (_precision - 1 - Z.of_nat a)))
        as [x' [hi' [Hrun [Hx' Hhi']]]].
      * lia.
      * split.
        -- apply Z.div_le_lower_bound; lia.
        -- apply Z.div_lt_upper_bound; lia.
      * exists x', hi'. split; [exact Hrun |]. split; [exact Hx' |].
        assert (0 <= 2 ^ (_precision - 1 - Z.of_nat a))
          by (apply Z.pow_nonneg; lia).
        unfold ONE in Hhi'. lia.
    + destruct (IH (S a) (_x * _x / 2 ^ _precision) hi)
        as [x' [hi' [Hrun [Hx' Hhi']]]]; [lia | lia |].
      exists x', hi'. now repeat split.
Qed.

Lemma fixedLog2_unfold (_x _precision : Z) :
  0 <= _precision -> 2 ^ _precision <= _x ->
  fixedLog2 _x _precision =
    st <- halving_loop (S (Z.to_nat (Z.log2 _x)))
            (2 ^ _precision) (2 * 2 ^ _precision) _x 0 ;;
    let '(x1, hi1) := st in
    st <- squaring_loop (map Z.of_nat (seq 0 (Z.to_nat _precision)))
            _precision (2 ^ _precision) (2 * 2 ^ _precision) x1 hi1 ;;
    let '(_, hi2) := st in Ok hi2.
Proof.
  intros Hp Hx. unfold fixedLog2, ONE, TWO.
  rewrite !shl_nonneg by exact Hp. rewrite !bind_Ok, Z.mul_1_l.
  rewrite assert_true by (apply Z.geb_le; exact Hx).
  rewrite bind_Ok, range_seq. reflexivity.
Qed.

Lemma fixedLog2_runs (_x _precision : Z) :
  0 <= _precision -> 2 ^ _precision <= _x ->
  exists v, fixedLog2 _x _precision = Ok v /\ 0 <= v.
Proof.
  intros Hp Hx.
  assert (HF : 0 < 2 ^ _precision) by (apply Z.pow_pos_nonneg; lia).
  rewrite fixedLog2_unfold by assumption.
  destruct (halving_loop_terminates (2 ^ _precision)
              (S (Z.to_nat (Z.log2 _x))) HF _x 0 Hx (log2_fuel _x))
    as [x1 [hi1 [Hrun1 [Hx1 Hhi1]]]].
  rewrite Hrun1, bind_Ok.
  destruct (squaring_loop_runs _precision (Z.to_nat _precision) Hp 0%nat x1 hi1)
    as [x2 [hi2 [Hrun2 [Hx2 Hhi2]]]]; [reflexivity | exact Hx1 |].
  rewrite Hrun2, bind_Ok.
  exists hi2. split; [reflexivity | lia].
Qed.

(** The bound on the [while] loop is never the reason [fixedLog2] stops:
    the model loses no behaviour of the source. *)
Lemma fixedLog2_fuel_adequate (_x _precision : Z) :
  fixedLog2 _x _precision <> Raise LoopFuelExhausted.
Proof.
  destruct (Z.lt_ge_cases _precision 0) as [Hneg | Hp].
  - unfold fixedLog2, shl.
    destruct (Z.ltb_spec _precision 0) as [_ | Hge]; [| lia].
    cbn [bind]. discriminate.
  - destruct (Z.le_gt_cases (2 ^ _precision) _x) as [Hx | Hx].
    + destruct (fixedLog2_runs _x _precision Hp Hx) as [v [-> _]]. discriminate.
    + unfold fixedLog2, ONE, TWO.
      rewrite !shl_nonneg by exact Hp. rewrite !bind_Ok, Z.mul_1_l.
      rewrite assert_false by (rewrite Z.geb_leb; apply Z.leb_gt; exact Hx).
      cbn [bind]. discriminate.
Qed.

Lemma fixedLoge_runs (_x _precision : Z) :
  0 <= _precision -> 2 ^ _precision <= _x ->
  exists v, fixedLoge _x _precision = Ok v /\ 0 <= v.
Proof.
  intros Hp Hx. unfold fixedLoge, ONE.
  rewrite shl_nonneg by exact Hp. rewrite bind_Ok, Z.mul_1_l.
  rewrite assert_true by (apply Z.geb_le; exact Hx).
  rewrite bind_Ok.
  destruct (fixedLog2_runs _x _precision Hp Hx) as [v [Hv Hv0]].
  rewrite Hv, bind_Ok.
  eexists. split; [reflexivity |].
  apply Z.shiftr_nonneg. lia.
Qed.

(** ** ln: accepted inputs *)

(** Once the four assertions of [ln] hold, the call is the call of
    [fixedLoge] on the rescaled quotient. *)
Lemma ln_accepts (numerator denominator precision : Z) :
  0 <= precision -> 0 <= 256 - precision ->
  denominator <= numerator ->
  denominator <> 0 -> numerator <> 0 ->
  numerator < 2 ^ (256 - precision) ->
  denominator < 2 ^ (256 - precision) ->
  ln numerator denominator precision =
  fixedLoge (Z.shiftl numerator precision / denominator) precision.
Proof.
  intros Hp Hprec Hle Hd Hn Hnmax Hdmax. unfold ln, ONE.
  rewrite assert_true by (apply Z.leb_le; exact Hle). rewrite bind_Ok.
  rewrite assert_true.
  2:{ apply andb_true_iff. split; apply negb_true_iff; apply Z.eqb_neq; assumption. }
  rewrite bind_Ok, shl_nonneg by exact Hprec. rewrite bind_Ok, Z.mul_1_l.
  rewrite assert_true by (apply Z.ltb_lt; exact Hnmax). rewrite bind_Ok.
  rewrite assert_true by (apply Z.ltb_lt; exact Hdmax). rewrite bind_Ok.
  rewrite shl_nonneg by exact Hp. rewrite bind_Ok.
  rewrite div_nonzero by exact Hd. rewrite bind_Ok.
  rewrite Z.shiftl_mul_pow2 by exact Hp. reflexivity.
Qed.

(** C10.  When [ln] is given unsigned operands that pass its validation
    ([denominator <= numerator], both non-zero, both below
    [2^(256 - precision)]), the value [x = (numerator << precision) /
    denominator] that it hands to [fixedLoge] is at least [2^precision], and
    the whole call returns a value: the domain assertions of [fixedLoge] and
    [fixedLog2] do not fire. *)
Theorem ln_validated_is_safe (numerator denominator precision : Z) :
  0 <= precision -> 0 <= numerator -> 0 <= denominator ->
  denominator <= numerator ->
  denominator <> 0 -> numerator <> 0 ->
  numerator < 2 ^ (256 - precision) ->
  denominator < 2 ^ (256 - precision) ->
  let x := Z.shiftl numerator precision / denominator in
  ln numerator denominator precision = fixedLoge x precision /\
  Z.shiftl ONE precision <= x /\
  succeeds (fixedLoge x precision).
Proof.
  intros Hp Hn0 Hd0 Hle Hd Hn Hnmax Hdmax x.
  assert (Hprec : 0 <= 256 - precision).
  { destruct (Z.lt_ge_cases (256 - precision) 0) as [Hneg | Hok]; [| exact Hok].
    rewrite Z.pow_neg_r in Hnmax by exact Hneg. lia. }
  assert (HF : 0 < 2 ^ precision) by (apply Z.pow_pos_nonneg; lia).
  assert (Hx : 2 ^ precision <= x).
  { unfold x. rewrite Z.shiftl_mul_pow2 by exact Hp.
    apply Z.div_le_lower_bound; nia. }
  split; [| split].
  - now apply ln_accepts.
  - unfold ONE. rewrite Z.shiftl_1_l. exact Hx.
  - destruct (fixedLoge_runs x precision Hp Hx) as [v [Hv _]].
    exists v. exact Hv.
Qed.

Lemma ln_validated_is_safe_witness :
  ln 3 2 32 = fixedLoge (Z.shiftl 3 32 / 2) 32 /\
  Z.shiftl ONE 32 <= Z.shiftl 3 32 / 2 /\
  succeeds (fixedLoge (Z.shiftl 3 32 / 2) 32).
Proof.
  apply (ln_validated_is_safe 3 2 32); lia.
Defined.

(** ** power at base one *)

Lemma squaring_loop_at_one (_precision fixedOne : Z) (idx : list Z) :
  0 < fixedOne ->
  forall hi,
    squaring_loop idx _precision fixedOne (2 * fixedOne) fixedOne hi
    = Ok (fixedOne, hi).
Proof.
  intros HF. induction idx as [| i idx IH]; intros hi; cbn [squaring_loop].
  - reflexivity.
  - rewrite div_nonzero by lia. rewrite bind_Ok.
    rewrite Z.div_mul by lia.
    destruct (Z.geb_spec fixedOne (2 * fixedOne)) as [Hge | _]; [lia |].
    apply IH.
Qed.

Lemma fixedLog2_at_one (_precision : Z) :
  0 <= _precision -> fixedLog2 (2 ^ _precision) _precision = Ok 0.
Proof.
  intros Hp.
  assert (HF : 0 < 2 ^ _precision) by (apply Z.pow_pos_nonneg; lia).
  rewrite fixedLog2_unfold by lia.
  cbn [halving_loop].
  destruct (Z.geb_spec (2 ^ _precision) (2 * 2 ^ _precision)) as [Hge | _]; [lia |].
  rewrite bind_Ok.
  now rewrite squaring_loop_at_one by exact HF.
Qed.

Lemma ln_at_one (_precision : Z) : 0 <= _precision < 256 -> ln 1 1 _precision = Ok 0.
Proof.
  intros Hp.
  assert (HF : 0 < 2 ^ _precision) by (apply Z.pow_pos_nonneg; lia).
  assert (Hmax : 1 < 2 ^ (256 - _precision)) by (apply Z.pow_gt_1; lia).
  rewrite ln_accepts by lia.
  rewrite Z.shiftl_1_l, Z.div_1_r.
  unfold fixedLoge, ONE.
  rewrite shl_nonneg by lia. rewrite bind_Ok, Z.mul_1_l.
  rewrite assert_true by (apply Z.geb_le; lia). rewrite bind_Ok.
  rewrite fixedLog2_at_one by lia. rewrite bind_Ok.
  now rewrite Z.mul_0_l, Z.shiftr_0_l.
Qed.

(** C1.  With base [1/1] the result is the fixed-point one, whatever the
    exponent: for [expN >= 0], [expD >= 1] and a precision in [[0, 62]],
    [power 1 1 expN expD precision] returns exactly [1 << precision].  In
    particular [power 1 1 1 1 32 = 0x100000000]. *)
Theorem power_base_one (expN expD precision : Z) :
  (0 <= expN -> 1 <= expD -> 0 <= precision <= 62 ->
   power 1 1 expN expD precision = Ok (Z.shiftl 1 precision)) /\
  power 1 1 1 1 32 = Ok 0x100000000.
Proof.
  split; [| reflexivity].
  intros HN HD Hp. unfold power.
  rewrite ln_at_one by lia. rewrite bind_Ok.
  unfold safeMul. rewrite Z.mul_0_l.
  rewrite assert_true by reflexivity. rewrite !bind_Ok.
  rewrite div_nonzero by lia. rewrite bind_Ok, Z.div_0_l by lia.
  unfold fixedExp.
  rewrite assert_true by (apply Z.leb_le; apply fixedExp_maxExp_nonneg).
  rewrite bind_Ok, Z.shiftl_1_l.
  apply fixedExpUnsafe_zero. lia.
Qed.

Lemma power_base_one_witness : power 1 1 7 3 40 = Ok (Z.shiftl 1 40).
Proof.
  apply (proj1 (power_base_one 7 3 40)); lia.
Defined.

(** ** calculateBestPrecision *)

Lemma lnUpperBound32_runs (_baseN _baseD : Z) :
  1 <= _baseD -> _baseN > _baseD -> succeeds (lnUpperBound32 _baseN _baseD).
Proof.
  intros HD HN. unfold lnUpperBound32.
  rewrite assert_true by (apply Z.gtb_lt; lia). rewrite bind_Ok. cbv zeta.
  destruct (_baseN * 100000 <=? _baseD * 271828); [eexists; reflexivity |].
  destruct (_baseN * 100000 <=? _baseD * 738905); [eexists; reflexivity |].
  destruct (_baseN * 100000 <=? _baseD * 2008553); [eexists; reflexivity |].
  rewrite div_nonzero by lia. rewrite bind_Ok.
  eexists; reflexivity.
Qed.

(** The search either breaks at one of the candidate precisions or runs
    through all of them. *)
Lemma bestPrecision_loop_runs (maxVal _expD : Z) (ps : list Z) :
  _expD <> 0 -> (forall p, In p ps -> 0 <= p) ->
  forall maxExp,
    bestPrecision_loop ps maxExp maxVal _expD = Ok None \/
    exists p, In p ps /\ bestPrecision_loop ps maxExp maxVal _expD = Ok (Some p).
Proof.
  intros HD. induction ps as [| p ps IH]; intros Hps maxExp;
    cbn [bestPrecision_loop].
  - now left.
  - rewrite shl_nonneg by (apply Hps; now left). rewrite bind_Ok.
    rewrite div_nonzero by exact HD. rewrite bind_Ok.
    destruct (maxExp <? maxVal * 2 ^ p / _expD).
    + right. exists p. split; [now left | reflexivity].
    + destruct (IH (fun q Hq => Hps q (or_intror Hq))
                   (Z.shiftr (maxExp * 0xeb5ec5975959c565) (64 - 2)))
        as [Hnone | [q [Hq Hsome]]].
      * now left.
      * right. exists q. split; [now right | exact Hsome].
Qed.

(** C4 (as amended).  For every input with [baseN > baseD >= 1] and
    [expD >= 1] (and any [expN >= 0]), [calculateBestPrecision] returns a
    value, and that value is one of 32, 34, 36, ..., 62. *)
Theorem calculateBestPrecision_range (baseN baseD expN expD : Z) :
  1 <= baseD -> baseN > baseD -> 0 <= expN -> 1 <= expD ->
  exists precision,
    calculateBestPrecision baseN baseD expN expD = Ok precision /\
    In precision [32; 34; 36; 38; 40; 42; 44; 46; 48; 50; 52; 54; 56; 58; 60; 62].
Proof.
  intros HD HN HeN HeD. unfold calculateBestPrecision. cbv zeta.
  destruct (lnUpperBound32_runs baseN baseD HD HN) as [ub ->]. rewrite bind_Ok.
  destruct (bestPrecision_loop_runs (ub * expN) expD (range3 0 32 2))
    with (maxExp := MAX_FIXED_EXP_32) as [-> | [p [Hp ->]]].
  - lia.
  - intros p Hp. apply in_range3 in Hp; lia.
  - rewrite bind_Ok. eexists. split; [reflexivity |].
    cbn. tauto.
  - rewrite bind_Ok.
    change (range3 0 32 2)
      with [0; 2; 4; 6; 8; 10; 12; 14; 16; 18; 20; 22; 24; 26; 28; 30] in Hp.
    cbn [In] in Hp.
    repeat (destruct Hp as [<- | Hp];
            [eexists; split; [reflexivity | cbn; tauto] |]).
    contradiction.
Qed.

Lemma calculateBestPrecision_range_witness :
  exists precision,
    calculateBestPrecision 1000000 1 1000000 1 = Ok precision /\
    In precision [32; 34; 36; 38; 40; 42; 44; 46; 48; 50; 52; 54; 56; 58; 60; 62].
Proof.
  apply (calculateBestPrecision_range 1000000 1 1000000 1); lia.
Defined.

(** C4 as first stated does not hold with a zero [baseD]: the input
    [(1, 0, 1, 1)] has [baseN > baseD], [expD >= 1] and [expN >= 0], and
    the call ends in the [ZeroDivisionError] of [(_baseN - 1) / _baseD]. *)
Lemma calculateBestPrecision_zero_baseD :
  1 > 0 /\ 1 >= 1 /\ 1 >= 0 /\
  calculateBestPrecision 1 0 1 1 = Raise ZeroDivisionError /\
  ~ succeeds (calculateBestPrecision 1 0 1 1).
Proof.
  repeat split; try lia.
  intros [v Hv]. vm_compute in Hv. discriminate.
Qed.

(** ** fixedExpUnsafe: width of the intermediate values *)

Lemma shr_Ok (a n : Z) : 0 <= n -> shr a n = Ok (Z.shiftr a n).
Proof. intros Hn. unfold shr. now destruct (Z.ltb_spec n 0); [lia |]. Qed.

Lemma shl_Ok (a n : Z) : 0 <= n -> shl a n = Ok (Z.shiftl a n).
Proof. intros Hn. unfold shl. now destruct (Z.ltb_spec n 0); [lia |]. Qed.

(** [series_run] performs the statements of [fixedExpUnsafe]: its partial
    sum is the one the function divides at the end. *)
Lemma fixedExpUnsafe_series (_x _precision : Z) :
  0 <= _precision ->
  fixedExpUnsafe _x _precision =
  Ok (snd (fst (series_run _x _precision)) / fixedExpUnsafe_leading).
Proof.
  intros Hp. unfold fixedExpUnsafe. cbv zeta.
  rewrite shl_Ok by exact Hp. rewrite bind_Ok.
  repeat (rewrite (shr_Ok _ _ Hp), bind_Ok).
  unfold div.
  change (0xde1bc4d19efcac82445da75b00000000 =? 0) with false. cbv iota.
  lazy beta iota zeta delta
    [series_run series_start series_step fold_left
     fixedExpUnsafe_coefficients fst snd fixedExpUnsafe_leading].
  reflexivity.
Qed.

Lemma series_step_mono (x y p c : Z) (s1 s2 : Z * Z * list Z) :
  0 <= x <= y -> 0 <= p -> 0 <= c ->
  series_le s1 s2 -> series_le (series_step x p s1 c) (series_step y p s2 c).
Proof.
  intros Hxy Hp Hc.
  destruct s1 as [[xi1 res1] seen1], s2 as [[xi2 res2] seen2].
  unfold series_le, below. cbn [fst snd series_step].
  intros [Hxi [Hres Hseen]].
  assert (H2 : 0 < 2 ^ p) by (apply Z.pow_pos_nonneg; lia).
  assert (Hprod : 0 <= xi1 * x <= xi2 * y) by nia.
  assert (Hsh : 0 <= Z.shiftr (xi1 * x) p <= Z.shiftr (xi2 * y) p).
  { rewrite !Z.shiftr_div_pow2 by exact Hp. split.
    - apply Z.div_pos; lia.
    - apply Z.div_le_mono; lia. }
  assert (Hterm : 0 <= Z.shiftr (xi1 * x) p * c <= Z.shiftr (xi2 * y) p * c) by nia.
  repeat split; try lia.
  repeat (constructor; [unfold below; lia |]). exact Hseen.
Qed.

Lemma series_fold_mono (x y p : Z) (cs : list Z) :
  0 <= x <= y -> 0 <= p -> Forall (fun c => 0 <= c) cs ->
  forall s1 s2,
    series_le s1 s2 ->
    series_le (fold_left (series_step x p) cs s1)
              (fold_left (series_step y p) cs s2).
Proof.
  intros Hxy Hp Hcs. induction Hcs as [| c cs Hc _ IH]; intros s1 s2 Hle;
    cbn [fold_left].
  - exact Hle.
  - apply IH. now apply series_step_mono.
Qed.

(** Every value computed on the way grows with the argument. *)
Lemma fixedExpUnsafe_values_mono (x y p : Z) :
  0 <= x <= y -> 0 <= p ->
  Forall2 below (fixedExpUnsafe_values x p) (fixedExpUnsafe_values y p).
Proof.
  intros Hxy Hp. unfold fixedExpUnsafe_values, series_run.
  apply series_fold_mono; try assumption.
  - unfold fixedExpUnsafe_coefficients.
    repeat (constructor; [lia |]). constructor.
  - unfold series_le, series_start, below, fixedExpUnsafe_leading.
    cbn [fst snd]. rewrite Z.shiftl_mul_pow2 by exact Hp.
    assert (H2 : 0 < 2 ^ p) by (apply Z.pow_pos_nonneg; lia).
    repeat split; try nia.
    repeat (constructor; [unfold below; nia |]). constructor.
Qed.

Lemma Forall2_below_Forall (bound : Z) (l1 l2 : list Z) :
  Forall2 below l1 l2 -> Forall (fun v => v < bound) l2 ->
  Forall (fun v => 0 <= v < bound) l1.
Proof.
  induction 1 as [| a b l1 l2 Hab _ IH]; intros Hall.
  - constructor.
  - inversion Hall as [| ? ? Hb Hrest]; subst.
    constructor; [unfold below in Hab; lia | now apply IH].
Qed.

Lemma Forall2_below_Exists (bound : Z) (l1 l2 : list Z) :
  Forall2 below l1 l2 -> Exists (fun v => bound <= v) l1 ->
  Exists (fun v => bound <= v) l2.
Proof.
  induction 1 as [| a b l1 l2 Hab _ IH]; intros Hex.
  - inversion Hex.
  - inversion Hex as [? ? Ha | ? ? Hrest]; subst.
    + left. unfold below in Hab. lia.
    + right. now apply IH.
Qed.

(** C9 (as amended).  At precision 32 [fixedExpUnsafe] returns a value for
    every input: it has no assertion.  For every [x] with
    [0 <= x <= 242329958953] all the values it computes on the way are below
    [2^256]; from [x = 242329958954] on, the first input for which this
    holds no more, one of them reaches [2^256], and a value is returned all
    the same. *)
Theorem fixedExpUnsafe_32_range :
  (forall x, succeeds (fixedExpUnsafe x 32)) /\
  (forall x, 0 <= x <= 242329958953 ->
     Forall (fun v => 0 <= v < 2 ^ 256) (fixedExpUnsafe_values x 32)) /\
  (forall x, 242329958954 <= x ->
     Exists (fun v => 2 ^ 256 <= v) (fixedExpUnsafe_values x 32)).
Proof.
  split; [| split].
  - intros x. rewrite fixedExpUnsafe_series by lia. eexists. reflexivity.
  - intros x Hx.
    apply Forall2_below_Forall with (l2 := fixedExpUnsafe_values 242329958953 32).
    + apply fixedExpUnsafe_values_mono; lia.
    + apply Forall_forall. intros v Hv. apply Z.ltb_lt.
      revert v Hv. apply forallb_forall. vm_compute. reflexivity.
  - intros x Hx.
    apply Forall2_below_Exists with (l1 := fixedExpUnsafe_values 242329958954 32).
    + apply fixedExpUnsafe_values_mono; lia.
    + assert (Hex : existsb (fun v => 2 ^ 256 <=? v)
                      (fixedExpUnsafe_values 242329958954 32) = true)
        by (vm_compute; reflexivity).
      apply existsb_exists in Hex. destruct Hex as [v [Hin Hv]].
      apply Exists_exists. exists v. split; [exact Hin |].
      apply Z.leb_le. exact Hv.
Qed.

Lemma fixedExpUnsafe_32_range_witness :
  Forall (fun v => 0 <= v < 2 ^ 256) (fixedExpUnsafe_values 242329958953 32) /\
  Exists (fun v => 2 ^ 256 <= v) (fixedExpUnsafe_values 242329958954 32).
Proof.
  split.
  - apply (proj1 (proj2 fixedExpUnsafe_32_range) 242329958953). lia.
  - apply (proj2 (proj2 fixedExpUnsafe_32_range) 242329958954). lia.
Defined.

(** C9 as first stated expects a failure at [x = 242329958954]; the
    function returns a value there. *)
Lemma fixedExpUnsafe_32_no_failure :
  fixedExpUnsafe 242329958954 32 = Ok 7115225351404790684574188917459 /\
  (forall e, fixedExpUnsafe 242329958954 32 <> Raise e).
Proof.
  split; [vm_compute; reflexivity |].
  intros e He. vm_compute in He. discriminate.
Qed.

(** ** Real-valued logarithms *)

Section RealBounds.
Local Open Scope R_scope.

Lemma Rln_le (a b : R) : 0 < a -> a <= b -> Rpower.ln a <= Rpower.ln b.
Proof.
  intros Ha [Hlt | ->]; [| lra].
  left. now apply ln_increasing.
Qed.

Lemma ln_le_of_le_exp (a t : R) : 0 < a -> a <= exp t -> Rpower.ln a <= t.
Proof.
  intros Ha Hle. rewrite <- (ln_exp t). now apply Rln_le.
Qed.

Lemma IZR_div_floor (a b : Z) : (0 < b)%Z -> IZR (a / b) <= IZR a / IZR b.
Proof.
  intros Hb.
  assert (HbR : 0 < IZR b) by now apply IZR_lt.
  apply Rmult_le_reg_r with (IZR b); [exact HbR |].
  unfold Rdiv. rewrite Rmult_assoc, Rinv_l, Rmult_1_r by lra.
  rewrite <- mult_IZR. apply IZR_le.
  rewrite Z.mul_comm. apply Z.mul_div_le. exact Hb.
Qed.

Lemma IZR_ratio_le (n d m : Z) :
  (0 < d)%Z -> (n <= m * d)%Z -> IZR n / IZR d <= IZR m.
Proof.
  intros Hd Hle.
  assert (HdR : 0 < IZR d) by now apply IZR_lt.
  apply Rmult_le_reg_r with (IZR d); [exact HdR |].
  unfold Rdiv. rewrite Rmult_assoc, Rinv_l, Rmult_1_r by lra.
  rewrite <- mult_IZR. now apply IZR_le.
Qed.

Lemma IZR_pow2_pos (P : Z) : (0 <= P)%Z -> 0 < IZR (2 ^ P).
Proof. intros HP. apply IZR_lt. apply Z.pow_pos_nonneg; lia. Qed.

Lemma square_down_sound (P : Z) (m : nat) :
  (0 <= P)%Z ->
  forall (a : Z) (y : R),
    (0 <= a)%Z -> IZR a / IZR (2 ^ P) <= exp y ->
    IZR (square_down P m a) / IZR (2 ^ P) <= exp (y * 2 ^ m).
Proof.
  intros HP. pose proof (IZR_pow2_pos P HP) as HF.
  induction m as [| m IH]; intros a y Ha Hle; cbn [square_down].
  - now rewrite pow_O, Rmult_1_r.
  - replace (y * 2 ^ S m) with ((2 * y) * 2 ^ m) by (cbn [pow]; ring).
    apply IH.
    + apply Z.div_pos; [nia | apply Z.pow_pos_nonneg; lia].
    + assert (Ha' : 0 <= IZR a / IZR (2 ^ P)).
      { apply Rmult_le_pos; [now apply IZR_le | left; now apply Rinv_0_lt_compat]. }
      replace (2 * y) with (y + y) by ring. rewrite exp_plus.
      apply Rle_trans with (IZR a / IZR (2 ^ P) * (IZR a / IZR (2 ^ P))).
      * apply Rmult_le_reg_r with (IZR (2 ^ P)); [exact HF |].
        unfold Rdiv at 1. rewrite Rmult_assoc, Rinv_l, Rmult_1_r by lra.
        apply Rle_trans with (IZR (a * a) / IZR (2 ^ P)).
        -- apply IZR_div_floor. apply Z.pow_pos_nonneg; lia.
        -- rewrite mult_IZR. right. field. lra.
      * apply Rmult_le_compat; assumption.
Qed.

Lemma exp_lower_sound (P : Z) (m : nat) (xn xd : Z) :
  (0 <= P)%Z -> (0 <= xn)%Z -> (0 < xd)%Z ->
  IZR (exp_lower P m xn xd) / IZR (2 ^ P) <= exp (IZR xn / IZR xd).
Proof.
  intros HP Hxn Hxd. unfold exp_lower.
  pose proof (IZR_pow2_pos P HP) as HF.
  pose proof (IZR_pow2_pos (Z.of_nat m) (Nat2Z.is_nonneg m)) as HM.
  assert (HdR : 0 < IZR xd) by now apply IZR_lt.
  assert (Hden : (0 < xd * 2 ^ Z.of_nat m)%Z)
    by (apply Z.mul_pos_pos; [exact Hxd | apply Z.pow_pos_nonneg; lia]).
  replace (IZR xn / IZR xd) with (IZR xn / IZR xd / 2 ^ m * 2 ^ m).
  2:{ field. repeat split; try lra; apply pow_nonzero; lra. }
  apply square_down_sound; [exact HP | |].
  - assert (0 <= xn * 2 ^ P / (xd * 2 ^ Z.of_nat m))%Z
      by (apply Z.div_pos; [apply Z.mul_nonneg_nonneg; lia | exact Hden]).
    assert (0 < 2 ^ P)%Z by (apply Z.pow_pos_nonneg; lia). lia.
  - apply Rle_trans with (1 + IZR xn / IZR xd / 2 ^ m); [| apply exp_ineq1_le].
    rewrite plus_IZR. unfold Rdiv at 1. rewrite Rmult_plus_distr_r.
    rewrite Rinv_r by lra. apply Rplus_le_compat_l.
    apply Rle_trans
      with (IZR (xn * 2 ^ P) / IZR (xd * 2 ^ Z.of_nat m) * / IZR (2 ^ P)).
    + apply Rmult_le_compat_r; [left; now apply Rinv_0_lt_compat |].
      now apply IZR_div_floor.
    + rewrite !mult_IZR, <- (pow_IZR 2 m). right. field.
      repeat split; try lra; apply pow_nonzero; lra.
Qed.


Lemma exp_lower_check (P : Z) (m : nat) (xn xd num den : Z) :
  (0 <= P)%Z -> (0 <= xn)%Z -> (0 < xd)%Z -> (0 < den)%Z ->
  (num * 2 ^ P <=? den * exp_lower P m xn xd)%Z = true ->
  IZR num / IZR den <= exp (IZR xn / IZR xd).
Proof.
  intros HP Hxn Hxd Hden Hchk. apply Z.leb_le in Hchk.
  pose proof (IZR_pow2_pos P HP) as HF.
  assert (HdenR : 0 < IZR den) by now apply IZR_lt.
  apply Rle_trans with (IZR (exp_lower P m xn xd) / IZR (2 ^ P));
    [| now apply exp_lower_sound].
  apply IZR_le in Hchk. rewrite !mult_IZR in Hchk.
  apply Rmult_le_reg_r with (IZR den * IZR (2 ^ P)).
  - now apply Rmult_lt_0_compat.
  - replace (IZR num / IZR den * (IZR den * IZR (2 ^ P)))
      with (IZR num * IZR (2 ^ P)) by (field; lra).
    replace (IZR (exp_lower P m xn xd) / IZR (2 ^ P) * (IZR den * IZR (2 ^ P)))
      with (IZR den * IZR (exp_lower P m xn xd)) by (field; lra).
    exact Hchk.
Qed.

(** [0xb17217f8] is [ln 2 * 2^32] rounded up. *)
Lemma ln2_scaled_upper : Rpower.ln 2 * 2 ^ 32 <= IZR 0xb17217f8.
Proof.
  assert (H : IZR 2 / IZR 1 <= exp (IZR 0xb17217f8 / IZR (2 ^ 32))).
  { apply (exp_lower_check 128 40); try lia. vm_compute. reflexivity. }
  replace (IZR 2 / IZR 1) with 2 in H by field.
  apply ln_le_of_le_exp in H; [| lra].
  replace (IZR (2 ^ 32)) with (2 ^ 32) in H by (rewrite pow_IZR; reflexivity).
  assert (Hpow : 0 < 2 ^ 32) by (apply pow_lt; lra).
  apply Rmult_le_reg_r with (/ 2 ^ 32); [now apply Rinv_0_lt_compat |].
  rewrite Rmult_assoc, Rinv_r, Rmult_1_r by lra. exact H.
Qed.

Lemma e1_lower : 271828 / 100000 <= exp 1.
Proof.
  assert (H : IZR 271828 / IZR 100000 <= exp (IZR 1 / IZR 1)).
  { apply (exp_lower_check 128 40); try lia. vm_compute. reflexivity. }
  replace (IZR 1 / IZR 1) with 1 in H by field. exact H.
Qed.

Lemma e2_lower : 738905 / 100000 <= exp 2.
Proof.
  assert (H : IZR 738905 / IZR 100000 <= exp (IZR 2 / IZR 1)).
  { apply (exp_lower_check 128 40); try lia. vm_compute. reflexivity. }
  replace (IZR 2 / IZR 1) with 2 in H by field. exact H.
Qed.

Lemma e3_lower : 2008553 / 100000 <= exp 3.
Proof.
  assert (H : IZR 2008553 / IZR 100000 <= exp (IZR 3 / IZR 1)).
  { apply (exp_lower_check 128 40); try lia. vm_compute. reflexivity. }
  replace (IZR 3 / IZR 1) with 3 in H by field. exact H.
Qed.


(** *** lnUpperBound32 *)

Lemma ln_ratio_le (n d num : Z) (k : R) :
  (0 < d)%Z -> (0 < n)%Z -> (n * 100000 <= d * num)%Z ->
  IZR num / 100000 <= exp k ->
  Rpower.ln (IZR n / IZR d) <= k.
Proof.
  intros Hd Hn Hle Hexp.
  assert (HdR : 0 < IZR d) by now apply IZR_lt.
  assert (HnR : 0 < IZR n) by now apply IZR_lt.
  apply ln_le_of_le_exp.
  - now apply Rdiv_pos_pos.
  - apply Rle_trans with (IZR num / 100000); [| exact Hexp].
    apply IZR_le in Hle. rewrite !mult_IZR in Hle.
    apply Rmult_le_reg_r with (IZR d * 100000); [lra |].
    replace (IZR n / IZR d * (IZR d * 100000)) with (IZR n * 100000)
      by (field; lra).
    replace (IZR num / 100000 * (IZR d * 100000)) with (IZR d * IZR num)
      by (field; lra).
    exact Hle.
Qed.

Lemma ln_pow2 (k : Z) : (0 <= k)%Z -> Rpower.ln (IZR (2 ^ k)) = IZR k * Rpower.ln 2.
Proof.
  intros Hk. rewrite <- (Z2Nat.id k Hk) at 1.
  rewrite <- pow_IZR, ln_pow by lra.
  now rewrite INR_IZR_INZ, Z2Nat.id.
Qed.

(** C6 (as amended).  For every [baseN], [baseD] with
    [1 <= baseD < baseN < 2^256], [lnUpperBound32 baseN baseD] returns a
    value that is at least [ln (baseN / baseD) * 2^32], with [ln] the exact
    real natural logarithm. *)
Theorem lnUpperBound32_upper_bound (baseN baseD : Z) :
  (1 <= baseD)%Z -> (baseN > baseD)%Z -> (baseN < 2 ^ 256)%Z ->
  exists v,
    lnUpperBound32 baseN baseD = Ok v /\
    Rpower.ln (IZR baseN / IZR baseD) * 2 ^ 32 <= IZR v.
Proof.
  intros HD HN Hmax. unfold lnUpperBound32.
  rewrite assert_true by (apply Z.gtb_lt; lia). rewrite bind_Ok. cbv zeta.
  assert (H32 : 0 < 2 ^ 32) by (apply pow_lt; lra).
  destruct (Z.leb_spec (baseN * 100000) (baseD * 271828)) as [H1 | H1].
  { eexists. split; [reflexivity |].
    change (Z.shiftl 1 32) with (1 * 2 ^ Z.of_nat 32)%Z.
    rewrite mult_IZR, <- pow_IZR.
    apply Rmult_le_compat_r; [lra |].
    apply ln_ratio_le with (num := 271828%Z); try lia. exact e1_lower. }
  destruct (Z.leb_spec (baseN * 100000) (baseD * 738905)) as [H2 | H2].
  { eexists. split; [reflexivity |].
    change (Z.shiftl 2 32) with (2 * 2 ^ Z.of_nat 32)%Z.
    rewrite mult_IZR, <- pow_IZR.
    apply Rmult_le_compat_r; [lra |].
    apply ln_ratio_le with (num := 738905%Z); try lia. exact e2_lower. }
  destruct (Z.leb_spec (baseN * 100000) (baseD * 2008553)) as [H3 | H3].
  { eexists. split; [reflexivity |].
    change (Z.shiftl 3 32) with (3 * 2 ^ Z.of_nat 32)%Z.
    rewrite mult_IZR, <- pow_IZR.
    apply Rmult_le_compat_r; [lra |].
    apply ln_ratio_le with (num := 2008553%Z); try lia. exact e3_lower. }
  rewrite div_nonzero by lia. rewrite bind_Ok.
  eexists. split; [reflexivity |].
  set (q := ((baseN - 1) / baseD)%Z).
  assert (Hq : (20 <= q < 2 ^ 256)%Z).
  { unfold q. split.
    - apply Z.div_le_lower_bound; lia.
    - apply Z.div_lt_upper_bound; nia. }
  assert (Hdm : (baseN - 1 < (q + 1) * baseD)%Z).
  { unfold q.
    pose proof (Z.div_mod (baseN - 1) baseD) as Hdm.
    pose proof (Z.mod_pos_bound (baseN - 1) baseD) as Hmod. nia. }
  rewrite floorLog2_log2 by lia.
  pose proof (Z.log2_spec q) as Hlog.
  pose proof (Z.log2_nonneg q) as Hk.
  set (k := Z.log2 q) in *.
  replace (Z.succ k) with (k + 1)%Z in Hlog by lia.
  assert (Hratio : IZR baseN / IZR baseD <= IZR (2 ^ (k + 1))).
  { apply IZR_ratio_le; nia. }
  assert (HdR : 0 < IZR baseD) by (apply IZR_lt; lia).
  assert (HnR : 0 < IZR baseN) by (apply IZR_lt; lia).
  apply Rln_le in Hratio; [| now apply Rdiv_pos_pos].
  rewrite ln_pow2 in Hratio by lia.
  rewrite mult_IZR.
  assert (Hk1 : 0 <= IZR (k + 1)) by (apply IZR_le; lia).
  pose proof ln2_scaled_upper as Hln2.
  apply Rle_trans with (IZR (k + 1) * Rpower.ln 2 * 2 ^ 32).
  - apply Rmult_le_compat_r; [lra | exact Hratio].
  - rewrite Rmult_assoc. apply Rmult_le_compat_l; assumption.
Qed.

Lemma lnUpperBound32_upper_bound_witness :
  exists v,
    lnUpperBound32 1000 3 = Ok v /\
    Rpower.ln (IZR 1000 / IZR 3) * 2 ^ 32 <= IZR v.
Proof.
  apply (lnUpperBound32_upper_bound 1000 3); lia.
Defined.

(** C6 as first stated does not hold beyond 256 bits: [floorLog2] probes
    eight shift amounts and answers at most 255, so at [baseN = 2^512],
    [baseD = 1] the result is [256 * 0xb17217f8], below
    [ln (2^512) * 2^32 = 512 * ln 2 * 2^32]. *)
Lemma lnUpperBound32_beyond_256_bits :
  (2 ^ 512 > 1)%Z /\
  exists v,
    lnUpperBound32 (2 ^ 512) 1 = Ok v /\
    IZR v < Rpower.ln (IZR (2 ^ 512) / IZR 1) * 2 ^ 32.
Proof.
  split; [reflexivity |].
  exists 762123384832%Z. split; [vm_compute; reflexivity |].
  replace (IZR (2 ^ 512) / IZR 1) with (IZR (2 ^ 512)) by field.
  rewrite ln_pow2 by lia.
  pose proof ln_lt_2 as Hln2.
  assert (H32 : 2 ^ 32 = 4294967296) by (rewrite pow_IZR; reflexivity).
  rewrite H32. nra.
Qed.


(** *** fixedLog2 *)

Lemma ln_halving (a b : R) :
  0 < a -> 2 * a <= b -> Rpower.ln a + Rpower.ln 2 <= Rpower.ln b.
Proof.
  intros Ha Hle. rewrite <- ln_mult by lra.
  apply Rln_le; [| lra].
  apply Rmult_lt_0_compat; lra.
Qed.

Lemma ln_squaring (a b : R) :
  0 < a -> 0 < b -> b <= a * a -> Rpower.ln b <= 2 * Rpower.ln a.
Proof.
  intros Ha Hb Hle.
  replace (2 * Rpower.ln a) with (Rpower.ln a + Rpower.ln a) by ring.
  rewrite <- ln_mult by assumption.
  now apply Rln_le.
Qed.

Lemma ln_ratio_nonneg (x F : Z) :
  (0 < F)%Z -> (F <= x)%Z -> 0 <= Rpower.ln (IZR x / IZR F).
Proof.
  intros HF Hx. rewrite <- ln_1.
  assert (HFR : 0 < IZR F) by now apply IZR_lt.
  apply Rln_le; [lra |].
  apply Rmult_le_reg_r with (IZR F); [exact HFR |].
  unfold Rdiv. rewrite Rmult_assoc, Rinv_l, Rmult_1_r, Rmult_1_l by lra.
  now apply IZR_le.
Qed.

(** Halving [_x] (rounding down) costs at least one unit of binary
    logarithm. *)
Lemma halved_ratio (x F : Z) :
  (0 < F)%Z -> (2 * F <= x)%Z ->
  Rpower.ln (IZR (x / 2) / IZR F) + Rpower.ln 2 <= Rpower.ln (IZR x / IZR F).
Proof.
  intros HF Hx.
  assert (HFR : 0 < IZR F) by now apply IZR_lt.
  assert (Hh : (F <= x / 2)%Z) by (apply Z.div_le_lower_bound; lia).
  assert (HhR : 0 < IZR (x / 2)) by (apply IZR_lt; lia).
  apply ln_halving.
  - now apply Rdiv_pos_pos.
  - assert (H2 : IZR 2 * IZR (x / 2) <= IZR x).
    { rewrite <- mult_IZR. apply IZR_le. apply Z.mul_div_le. lia. }
    apply Rmult_le_reg_r with (IZR F); [exact HFR |].
    replace (2 * (IZR (x / 2) / IZR F) * IZR F) with (IZR 2 * IZR (x / 2))
      by (field; lra).
    replace (IZR x / IZR F * IZR F) with (IZR x) by (field; lra).
    exact H2.
Qed.

(** Squaring [_x] in fixed point (rounding down) at most doubles its
    logarithm. *)
Lemma squared_ratio (x F : Z) :
  (0 < F)%Z -> (F <= x)%Z ->
  Rpower.ln (IZR (x * x / F) / IZR F) <= 2 * Rpower.ln (IZR x / IZR F).
Proof.
  intros HF Hx.
  assert (HFR : 0 < IZR F) by now apply IZR_lt.
  assert (HxR : 0 < IZR x) by (apply IZR_lt; lia).
  assert (Hs : (F <= x * x / F)%Z) by (apply Z.div_le_lower_bound; nia).
  assert (HsR : 0 < IZR (x * x / F)) by (apply IZR_lt; lia).
  apply ln_squaring; try now apply Rdiv_pos_pos.
  pose proof (IZR_div_floor (x * x) F HF) as Hfl. rewrite mult_IZR in Hfl.
  apply Rmult_le_reg_r with (IZR F); [exact HFR |].
  replace (IZR (x * x / F) / IZR F * IZR F) with (IZR (x * x / F))
    by (field; lra).
  replace (IZR x / IZR F * (IZR x / IZR F) * IZR F) with (IZR x * IZR x / IZR F)
    by (field; lra).
  exact Hfl.
Qed.

Lemma halving_loop_bound (F : Z) (fuel : nat) :
  (0 < F)%Z ->
  forall x hi x' hi',
    (F <= x)%Z ->
    halving_loop fuel F (2 * F) x hi = Ok (x', hi') ->
    IZR hi' * Rpower.ln 2 + IZR F * Rpower.ln (IZR x' / IZR F)
    <= IZR hi * Rpower.ln 2 + IZR F * Rpower.ln (IZR x / IZR F).
Proof.
  intros HF. assert (HFR : 0 < IZR F) by now apply IZR_lt.
  induction fuel as [| fuel IH]; intros x hi x' hi' Hx Hrun;
    cbn [halving_loop] in Hrun;
    destruct (Z.geb_spec x (2 * F)) as [Hge | Hlt];
    try discriminate; try (injection Hrun as <- <-; lra).
  rewrite Z.shiftr_div_pow2 in Hrun by lia. change (2 ^ 1)%Z with 2%Z in Hrun.
  apply IH in Hrun; [| apply Z.div_le_lower_bound; lia].
  rewrite plus_IZR in Hrun.
  pose proof (halved_ratio x F HF Hge) as Hhalf.
  nra.
Qed.

Lemma squaring_loop_bound (p : Z) (n : nat) :
  (0 <= p)%Z ->
  forall (a : nat) x hi x' hi',
    (a + n = Z.to_nat p)%nat ->
    (2 ^ p <= x < 2 * 2 ^ p)%Z ->
    squaring_loop (map Z.of_nat (seq a n)) p (2 ^ p) (2 * 2 ^ p) x hi
    = Ok (x', hi') ->
    (2 ^ p <= x')%Z /\
    IZR hi' * Rpower.ln 2 + Rpower.ln (IZR x' / IZR (2 ^ p))
    <= IZR hi * Rpower.ln 2 + 2 ^ n * Rpower.ln (IZR x / IZR (2 ^ p)).
Proof.
  intros Hp.
  assert (HF : (0 < 2 ^ p)%Z) by (apply Z.pow_pos_nonneg; lia).
  induction n as [| n IH]; intros a x hi x' hi' Han Hx Hrun;
    cbn [seq map squaring_loop] in Hrun.
  - injection Hrun as <- <-. split; [lia |]. rewrite pow_O. lra.
  - rewrite div_nonzero, bind_Ok in Hrun by lia.
    assert (Hsq_lo : (2 ^ p <= x * x / 2 ^ p)%Z)
      by (apply Z.div_le_lower_bound; nia).
    assert (Hsq_hi : (x * x / 2 ^ p < 4 * 2 ^ p)%Z)
      by (apply Z.div_lt_upper_bound; nia).
    pose proof (squared_ratio x (2 ^ p) HF (proj1 Hx)) as Hsq.
    pose proof (ln_ratio_nonneg x (2 ^ p) HF (proj1 Hx)) as Hx0.
    assert (Hpow : 0 < 2 ^ n) by (apply pow_lt; lra).
    destruct (Z.geb_spec (x * x / 2 ^ p) (2 * 2 ^ p)) as [Hge | Hlt].
    + rewrite shl_nonneg, bind_Ok in Hrun by lia.
      rewrite Z.shiftr_div_pow2 in Hrun by lia.
      change (2 ^ 1)%Z with 2%Z in Hrun.
      apply IH in Hrun; [| lia |].
      2:{ split; [apply Z.div_le_lower_bound; lia
                 | apply Z.div_lt_upper_bound; lia]. }
      destruct Hrun as [Hx' Hrun]. split; [exact Hx' |].
      pose proof (halved_ratio (x * x / 2 ^ p) (2 ^ p) HF Hge) as Hhalf.
      rewrite plus_IZR in Hrun. unfold ONE in Hrun. rewrite Z.mul_1_l in Hrun.
      replace (p - 1 - Z.of_nat a)%Z with (Z.of_nat n) in Hrun by lia.
      rewrite <- pow_IZR in Hrun.
      cbn [pow]. nra.
    + apply IH in Hrun; [| lia | lia].
      destruct Hrun as [Hx' Hrun]. split; [exact Hx' |].
      cbn [pow]. nra.
Qed.

(** C5.  For every precision [>= 0] and every [x >= 2^precision],
    [fixedLog2 x precision] returns a value that does not exceed
    [log2 (x / 2^precision) * 2^precision], with [log2] the exact real
    binary logarithm: the result is an underestimate. *)
Theorem fixedLog2_underestimates (x precision : Z) :
  (0 <= precision)%Z -> (2 ^ precision <= x)%Z ->
  exists v,
    fixedLog2 x precision = Ok v /\
    IZR v <= Rlog 2 (IZR x / IZR (2 ^ precision)) * IZR (2 ^ precision).
Proof.
  intros Hp Hx.
  assert (HF : (0 < 2 ^ precision)%Z) by (apply Z.pow_pos_nonneg; lia).
  assert (HFR : 0 < IZR (2 ^ precision)) by now apply IZR_lt.
  destruct (fixedLog2_runs x precision Hp Hx) as [v [Hv _]].
  exists v. split; [exact Hv |].
  rewrite fixedLog2_unfold in Hv by assumption.
  destruct (halving_loop_terminates (2 ^ precision)
              (S (Z.to_nat (Z.log2 x))) HF x 0 Hx (log2_fuel x))
    as [x1 [hi1 [Hrun1 [Hx1 _]]]].
  rewrite Hrun1, bind_Ok in Hv.
  pose proof (halving_loop_bound _ _ HF _ _ _ _ Hx Hrun1) as Hb1.
  destruct (squaring_loop_runs precision (Z.to_nat precision) Hp 0%nat x1 hi1)
    as [x2 [hi2 [Hrun2 _]]]; [reflexivity | exact Hx1 |].
  rewrite Hrun2, bind_Ok in Hv. injection Hv as <-.
  destruct (squaring_loop_bound precision (Z.to_nat precision) Hp
              0%nat x1 hi1 x2 hi2 eq_refl Hx1 Hrun2) as [Hx2 Hb2].
  rewrite pow_IZR, Z2Nat.id in Hb2 by exact Hp.
  pose proof (ln_ratio_nonneg x2 (2 ^ precision) HF Hx2) as Hres.
  pose proof ln_lt_2 as Hln2.
  assert (Hv : IZR hi2 * Rpower.ln 2
               <= IZR (2 ^ precision) * Rpower.ln (IZR x / IZR (2 ^ precision)))
    by lra.
  unfold Rlog.
  apply Rmult_le_reg_r with (Rpower.ln 2); [lra |].
  replace (Rpower.ln (IZR x / IZR (2 ^ precision)) / Rpower.ln 2
           * IZR (2 ^ precision) * Rpower.ln 2)
    with (IZR (2 ^ precision) * Rpower.ln (IZR x / IZR (2 ^ precision)))
    by (field; lra).
  exact Hv.
Qed.

Lemma fixedLog2_underestimates_witness :
  exists v,
    fixedLog2 12884901888 32 = Ok v /\
    IZR v <= Rlog 2 (IZR 12884901888 / IZR (2 ^ 32)) * IZR (2 ^ 32).
Proof.
  apply (fixedLog2_underestimates 12884901888 32); lia.
Defined.

End RealBounds.

(** * Further properties *)

(** ** floorLog2 on and beyond its domain *)

(** X1.  On the non-zero 256-bit numbers the result brackets the argument
    between two consecutive powers of two. *)
Theorem floorLog2_brackets (n : Z) :
  1 <= n < 2 ^ 256 -> 2 ^ floorLog2 n <= n < 2 ^ (floorLog2 n + 1).
Proof.
  intros Hn. rewrite floorLog2_log2 by exact Hn.
  apply Z.log2_spec. lia.
Qed.

Lemma floorLog2_brackets_witness :
  2 ^ floorLog2 1000 <= 1000 < 2 ^ (floorLog2 1000 + 1).
Proof.
  apply (floorLog2_brackets 1000). lia.
Defined.

Lemma floorLog2_fold_skips (_n t : Z) (ss : list Z) :
  _n <= 1 -> Forall (fun s => 0 < s) ss ->
  fold_left floorLog2_step ss (_n, t) = (_n, t).
Proof.
  intros Hn Hss. induction Hss as [| s ss Hs _ IH]; cbn [fold_left].
  - reflexivity.
  - unfold floorLog2_step at 2, ONE. rewrite Z.shiftl_1_l.
    assert (H2 : 2 ^ 1 <= 2 ^ s) by (apply Z.pow_le_mono_r; lia).
    change (2 ^ 1) with 2 in H2.
    destruct (Z.geb_spec _n (2 ^ s)) as [Hge | _]; [lia | exact IH].
Qed.

Lemma floorLog2_fold_saturates (m : nat) :
  forall _n t q,
    0 <= q -> t = q * 2 ^ Z.of_nat m -> 2 ^ (2 ^ Z.of_nat m) <= _n ->
    snd (fold_left floorLog2_step
           (map (fun k => 2 ^ Z.of_nat k) (rev (seq 0 m))) (_n, t))
    = t + 2 ^ Z.of_nat m - 1.
Proof.
  induction m as [| m IH]; intros _n t q Hq Ht Hn.
  - cbn [seq rev map fold_left snd]. change (2 ^ Z.of_nat 0) with 1. lia.
  - rewrite seq_S, rev_app_distr. cbn [rev app map fold_left Nat.add].
    replace (Z.of_nat (S m)) with (Z.of_nat m + 1) in * by lia.
    assert (Hs : 0 < 2 ^ Z.of_nat m) by (apply Z.pow_pos_nonneg; lia).
    assert (Hps : 0 < 2 ^ (2 ^ Z.of_nat m)) by (apply Z.pow_pos_nonneg; lia).
    assert (Hjj : 2 ^ (Z.of_nat m + 1) = 2 * 2 ^ Z.of_nat m)
      by (rewrite Z.pow_add_r by lia; lia).
    assert (Hdouble : 2 ^ (2 ^ (Z.of_nat m + 1))
                      = 2 ^ (2 ^ Z.of_nat m) * 2 ^ (2 ^ Z.of_nat m)).
    { rewrite <- Z.pow_add_r by lia. f_equal. lia. }
    unfold floorLog2_step at 2, ONE. rewrite Z.shiftl_1_l.
    destruct (Z.geb_spec _n (2 ^ (2 ^ Z.of_nat m))) as [_ | Hlt]; [| nia].
    rewrite Ht, lor_above_pow2 by lia.
    rewrite (IH _ _ (2 * q + 1)); try lia.
    rewrite Z.shiftr_div_pow2 by lia.
    apply Z.div_le_lower_bound; lia.
Qed.

Lemma floorLog2_small (n : Z) : n <= 1 -> floorLog2 n = 0.
Proof.
  intros Hn. unfold floorLog2. rewrite floorLog2_fold_skips.
  - reflexivity.
  - exact Hn.
  - vm_compute. repeat (constructor; [reflexivity |]). constructor.
Qed.

Lemma floorLog2_large (n : Z) : 2 ^ 256 <= n -> floorLog2 n = 255.
Proof.
  intros Hn. unfold floorLog2.
  change (map (fun k => Z.shiftl 1 (8 - 1 - k)) (range 8))
    with (map (fun k => 2 ^ Z.of_nat k) (rev (seq 0 8))).
  apply (floorLog2_fold_saturates 8 n 0 0).
  - lia.
  - reflexivity.
  - exact Hn.
Qed.

Lemma floorLog2_range_mid (n : Z) : 1 <= n < 2 ^ 256 -> 0 <= floorLog2 n <= 255.
Proof.
  intros Hn. rewrite floorLog2_log2 by exact Hn.
  split; [apply Z.log2_nonneg |].
  assert (Z.log2 n < 256) by (apply Z.log2_lt_pow2; lia). lia.
Qed.

Lemma floorLog2_range (n : Z) : 0 <= floorLog2 n <= 255.
Proof.
  destruct (Z.le_gt_cases n 1) as [H1 | H1];
    [rewrite floorLog2_small by exact H1; lia |].
  destruct (Z.le_gt_cases (2 ^ 256) n) as [H2 | H2];
    [rewrite floorLog2_large by exact H2; lia |].
  apply floorLog2_range_mid. lia.
Qed.

(** X2.  Outside that domain the eight probes still answer: [0] for every
    [n <= 1] (so also for [0], which has no logarithm), and [255] for every
    [n >= 2^256]; the result always lies in [[0, 255]]. *)
Theorem floorLog2_edges (n : Z) :
  (n <= 1 -> floorLog2 n = 0) /\
  (2 ^ 256 <= n -> floorLog2 n = 255) /\
  0 <= floorLog2 n <= 255.
Proof.
  split; [apply floorLog2_small |]. split; [apply floorLog2_large |].
  apply floorLog2_range.
Qed.

Lemma floorLog2_edges_witness :
  floorLog2 0 = 0 /\ floorLog2 (2 ^ 300) = 255.
Proof.
  split.
  - apply (proj1 (floorLog2_edges 0)). lia.
  - apply (proj1 (proj2 (floorLog2_edges (2 ^ 300)))). lia.
Defined.

Lemma floorLog2_mono (n m : Z) : n <= m -> floorLog2 n <= floorLog2 m.
Proof.
  intros Hnm.
  destruct (Z.le_gt_cases n 1) as [Hn1 | Hn1].
  - rewrite (floorLog2_small n Hn1).
    destruct (Z.le_gt_cases m 1) as [Hm1 | Hm1];
      [rewrite floorLog2_small by exact Hm1; lia |].
    destruct (Z.le_gt_cases (2 ^ 256) m) as [Hm2 | Hm2];
      [rewrite floorLog2_large by exact Hm2; lia |].
    apply floorLog2_range_mid. lia.
  - destruct (Z.le_gt_cases (2 ^ 256) m) as [Hm2 | Hm2].
    + rewrite (floorLog2_large m Hm2).
      destruct (Z.le_gt_cases (2 ^ 256) n) as [Hn2 | Hn2];
        [rewrite floorLog2_large by exact Hn2; lia |].
      apply floorLog2_range_mid. lia.
    + rewrite !floorLog2_log2 by lia. now apply Z.log2_le_mono.
Qed.

(** X3.  [floorLog2] is monotone on all integers. *)
Theorem floorLog2_monotone (n m : Z) : n <= m -> floorLog2 n <= floorLog2 m.
Proof. apply floorLog2_mono. Qed.

Lemma floorLog2_monotone_witness : floorLog2 5 <= floorLog2 (2 ^ 400).
Proof.
  apply (floorLog2_monotone 5 (2 ^ 400)). vm_compute. discriminate.
Defined.

(** ** fixedLog2: integer part, range and exact values *)

(** The [while] loop shifts [_x] right by [log2 _x - precision] places and
    adds that many times [fixedOne] to [hi]. *)
Lemma halving_loop_exact (p : Z) (fuel : nat) :
  0 <= p ->
  forall _x hi,
    2 ^ p <= _x -> _x < 2 ^ Z.of_nat fuel ->
    halving_loop fuel (2 ^ p) (2 * 2 ^ p) _x hi
    = Ok (Z.shiftr _x (Z.log2 _x - p), hi + (Z.log2 _x - p) * 2 ^ p).
Proof.
  intros Hp.
  assert (HF : 0 < 2 ^ p) by (apply Z.pow_pos_nonneg; lia).
  induction fuel as [| fuel IH]; intros _x hi Hlo Hhi;
    cbn [halving_loop]; destruct (Z.geb_spec _x (2 * 2 ^ p)) as [Hge | Hlt].
  - change (2 ^ Z.of_nat 0) with 1 in Hhi. lia.
  - assert (Hlog : Z.log2 _x = p).
    { apply Z.log2_unique; [exact Hp |]. rewrite Z.pow_succ_r by exact Hp. lia. }
    rewrite Hlog, Z.sub_diag, Z.shiftr_0_r. f_equal. f_equal. lia.
  - rewrite Nat2Z.inj_succ, Z.pow_succ_r in Hhi by lia.
    assert (Hhalf : Z.shiftr _x 1 = _x / 2)
      by (rewrite Z.shiftr_div_pow2 by lia; reflexivity).
    assert (Hlog1 : p + 1 <= Z.log2 _x).
    { apply Z.log2_le_pow2; [lia |]. rewrite Z.pow_add_r by lia. lia. }
    rewrite IH.
    + rewrite Z.log2_shiftr by lia.
      rewrite Z.max_r by lia.
      rewrite Z.shiftr_shiftr by lia.
      f_equal. f_equal; [f_equal; lia | lia].
    + rewrite Hhalf. apply Z.div_le_lower_bound; lia.
    + rewrite Hhalf. apply Z.div_lt_upper_bound; lia.
  - assert (Hlog : Z.log2 _x = p).
    { apply Z.log2_unique; [exact Hp |]. rewrite Z.pow_succ_r by exact Hp. lia. }
    rewrite Hlog, Z.sub_diag, Z.shiftr_0_r. f_equal. f_equal. lia.
Qed.

(** The [for] loop adds distinct bits below [fixedOne]: with [n] rounds
    left it adds less than [2^n]. *)
Lemma squaring_loop_adds_fraction (_precision : Z) (n : nat) :
  0 <= _precision ->
  forall (a : nat) _x hi,
    (a + n = Z.to_nat _precision)%nat ->
    2 ^ _precision <= _x < 2 * 2 ^ _precision ->
    exists x' hi',
      squaring_loop (map Z.of_nat (seq a n)) _precision
        (2 ^ _precision) (2 * 2 ^ _precision) _x hi = Ok (x', hi') /\
      hi <= hi' < hi + 2 ^ Z.of_nat n.
Proof.
  intros Hp.
  assert (HF : 0 < 2 ^ _precision) by (apply Z.pow_pos_nonneg; lia).
  induction n as [| n IH]; intros a _x hi Han Hx; cbn [seq map squaring_loop].
  - exists _x, hi. split; [reflexivity |]. change (2 ^ Z.of_nat 0) with 1. lia.
  - rewrite div_nonzero by lia. rewrite bind_Ok.
    assert (Hsq_lo : 2 ^ _precision <= _x * _x / 2 ^ _precision)
      by (apply Z.div_le_lower_bound; nia).
    assert (Hsq_hi : _x * _x / 2 ^ _precision < 4 * 2 ^ _precision)
      by (apply Z.div_lt_upper_bound; nia).
    assert (Hpow : 2 ^ Z.of_nat (S n) = 2 * 2 ^ Z.of_nat n)
      by (rewrite Nat2Z.inj_succ, Z.pow_succ_r by lia; reflexivity).
    assert (Hpos : 0 < 2 ^ Z.of_nat n) by (apply Z.pow_pos_nonneg; lia).
    destruct (Z.geb_spec (_x * _x / 2 ^ _precision) (2 * 2 ^ _precision))
      as [Hge | Hlt].
    + rewrite shl_nonneg by lia. rewrite bind_Ok.
      rewrite Z.shiftr_div_pow2 by lia. change (2 ^ 1) with 2.
      replace (_precision - 1 - Z.of_nat a) with (Z.of_nat n) by lia.
      destruct (IH (S a) (_x * _x / 2 ^ _precision / 2)
                   (hi + ONE * 2 ^ Z.of_nat n))
        as [x' [hi' [Hrun Hhi']]].
      * lia.
      * split.
        -- apply Z.div_le_lower_bound; lia.
        -- apply Z.div_lt_upper_bound; lia.
      * exists x', hi'. split; [exact Hrun |]. unfold ONE in Hhi'. lia.
    + destruct (IH (S a) (_x * _x / 2 ^ _precision) hi)
        as [x' [hi' [Hrun Hhi']]]; [lia | lia |].
      exists x', hi'. split; [exact Hrun | lia].
Qed.

Lemma fixedLog2_bracket (_x _precision : Z) :
  0 <= _precision -> 2 ^ _precision <= _x ->
  exists v,
    fixedLog2 _x _precision = Ok v /\
    (Z.log2 _x - _precision) * 2 ^ _precision <= v
      < (Z.log2 _x - _precision + 1) * 2 ^ _precision.
Proof.
  intros Hp Hx.
  assert (HF : 0 < 2 ^ _precision) by (apply Z.pow_pos_nonneg; lia).
  rewrite fixedLog2_unfold by assumption.
  destruct (halving_loop_terminates (2 ^ _precision)
              (S (Z.to_nat (Z.log2 _x))) HF _x 0 Hx (log2_fuel _x))
    as [x1 [hi1 [Hrun1 [Hx1 _]]]].
  pose proof (halving_loop_exact _precision (S (Z.to_nat (Z.log2 _x))) Hp
                _x 0 Hx (log2_fuel _x)) as Hexact.
  rewrite Hrun1 in Hexact. injection Hexact as _ Hhi1.
  rewrite Hrun1, bind_Ok.
  destruct (squaring_loop_adds_fraction _precision (Z.to_nat _precision) Hp
              0%nat x1 hi1 eq_refl Hx1) as [x2 [hi2 [Hrun2 Hhi2]]].
  rewrite Hrun2, bind_Ok.
  exists hi2. split; [reflexivity |].
  rewrite Z2Nat.id in Hhi2 by exact Hp. lia.
Qed.

(** X4.  The integer part of the result is exact: it is the floor of the
    binary logarithm of the integer part of the argument. *)
Theorem fixedLog2_integer_part (x precision : Z) :
  0 <= precision -> 2 ^ precision <= x ->
  exists v,
    fixedLog2 x precision = Ok v /\
    v / 2 ^ precision = Z.log2 (x / 2 ^ precision).
Proof.
  intros Hp Hx.
  assert (HF : 0 < 2 ^ precision) by (apply Z.pow_pos_nonneg; lia).
  destruct (fixedLog2_bracket x precision Hp Hx) as [v [Hv Hbr]].
  exists v. split; [exact Hv |].
  assert (Hlog : precision <= Z.log2 x) by (apply Z.log2_le_pow2; lia).
  rewrite <- (Z.shiftr_div_pow2 x precision) by lia.
  rewrite Z.log2_shiftr, Z.max_r by lia.
  symmetry. apply Z.div_unique with (r := v - (Z.log2 x - precision) * 2 ^ precision);
    [left |]; lia.
Qed.

Lemma fixedLog2_integer_part_witness :
  exists v, fixedLog2 (5 * 2 ^ 32) 32 = Ok v /\
            v / 2 ^ 32 = Z.log2 (5 * 2 ^ 32 / 2 ^ 32).
Proof.
  apply (fixedLog2_integer_part (5 * 2 ^ 32) 32); lia.
Defined.

(** X5.  For an argument below [2^256] the result is below
    [(256 - precision) * 2^precision]; at precision 32 this is the
    documented output range [[0, 0xdfffffffff]]. *)
Theorem fixedLog2_output_range (x precision : Z) :
  0 <= precision -> 2 ^ precision <= x < 2 ^ 256 ->
  exists v,
    fixedLog2 x precision = Ok v /\
    0 <= v <= (256 - precision) * 2 ^ precision - 1 /\
    (precision = 32 -> v <= 0xdfffffffff).
Proof.
  intros Hp Hx.
  assert (HF : 0 < 2 ^ precision) by (apply Z.pow_pos_nonneg; lia).
  destruct (fixedLog2_bracket x precision Hp (proj1 Hx)) as [v [Hv Hbr]].
  exists v. split; [exact Hv |].
  assert (Hlo : precision <= Z.log2 x) by (apply Z.log2_le_pow2; lia).
  assert (Hhi : Z.log2 x < 256) by (apply Z.log2_lt_pow2; lia).
  assert (Hrange : 0 <= v <= (256 - precision) * 2 ^ precision - 1) by nia.
  split; [exact Hrange |].
  intros ->. change ((256 - 32) * 2 ^ 32 - 1) with 0xdfffffffff in Hrange. lia.
Qed.

Lemma fixedLog2_output_range_witness :
  exists v,
    fixedLog2 (2 ^ 256 - 1) 32 = Ok v /\
    0 <= v <= (256 - 32) * 2 ^ 32 - 1 /\
    (32 = 32 -> v <= 0xdfffffffff).
Proof.
  apply (fixedLog2_output_range (2 ^ 256 - 1) 32); lia.
Defined.

(** X6.  On a power of two the result is exact: no fractional bit is set. *)
Theorem fixedLog2_pow2_exact (k precision : Z) :
  0 <= precision -> 0 <= k ->
  fixedLog2 (2 ^ (precision + k)) precision = Ok (k * 2 ^ precision).
Proof.
  intros Hp Hk.
  assert (HF : 0 < 2 ^ precision) by (apply Z.pow_pos_nonneg; lia).
  assert (Hx : 2 ^ precision <= 2 ^ (precision + k))
    by (apply Z.pow_le_mono_r; lia).
  rewrite fixedLog2_unfold by assumption.
  rewrite halving_loop_exact; [| exact Hp | exact Hx | apply log2_fuel].
  rewrite bind_Ok, Z.log2_pow2 by lia.
  replace (precision + k - precision) with k by lia.
  rewrite Z.shiftr_div_pow2 by exact Hk.
  rewrite Z.pow_add_r, Z.div_mul by (try apply Z.pow_nonzero; lia).
  rewrite squaring_loop_at_one by exact HF.
  rewrite bind_Ok. reflexivity.
Qed.

Lemma fixedLog2_pow2_exact_witness :
  fixedLog2 (2 ^ (32 + 7)) 32 = Ok (7 * 2 ^ 32).
Proof.
  apply (fixedLog2_pow2_exact 7 32); lia.
Defined.

(** ** fixedLoge and ln: outcomes *)

Lemma fixedLoge_value (_x _precision : Z) :
  0 <= _precision -> 2 ^ _precision <= _x ->
  forall l, fixedLog2 _x _precision = Ok l ->
  fixedLoge _x _precision = Ok (Z.shiftr (l * 0xb17217f7d1cf78) 56).
Proof.
  intros Hp Hx l Hl. unfold fixedLoge, ONE.
  rewrite shl_nonneg by exact Hp. rewrite bind_Ok, Z.mul_1_l.
  rewrite assert_true by (apply Z.geb_le; exact Hx).
  rewrite bind_Ok, Hl, bind_Ok. reflexivity.
Qed.

Lemma fixedLoge_rejects (_x _precision : Z) :
  0 <= _precision -> _x < 2 ^ _precision ->
  fixedLoge _x _precision = Raise (AssertionError fixedLoge_one).
Proof.
  intros Hp Hx. unfold fixedLoge, ONE.
  rewrite shl_nonneg by exact Hp. rewrite bind_Ok, Z.mul_1_l.
  rewrite assert_false by (rewrite Z.geb_leb; apply Z.leb_gt; exact Hx).
  reflexivity.
Qed.

Lemma fixedLog2_rejects (_x _precision : Z) :
  0 <= _precision -> _x < 2 ^ _precision ->
  fixedLog2 _x _precision = Raise (AssertionError fixedLog2_one).
Proof.
  intros Hp Hx. unfold fixedLog2, ONE, TWO.
  rewrite !shl_nonneg by exact Hp. rewrite !bind_Ok, Z.mul_1_l.
  rewrite assert_false by (rewrite Z.geb_leb; apply Z.leb_gt; exact Hx).
  reflexivity.
Qed.

(** X7.  For a precision [>= 0], [fixedLog2] and [fixedLoge] return a value
    exactly on the arguments [x >= 2^precision]; below, each fails with its
    own domain assertion. *)
Theorem fixedLog_domain (x precision : Z) :
  0 <= precision ->
  (2 ^ precision <= x ->
   succeeds (fixedLog2 x precision) /\ succeeds (fixedLoge x precision)) /\
  (x < 2 ^ precision ->
   fixedLog2 x precision = Raise (AssertionError fixedLog2_one) /\
   fixedLoge x precision = Raise (AssertionError fixedLoge_one) /\
   fails_with DomainError (fixedLog2 x precision) /\
   fails_with DomainError (fixedLoge x precision)).
Proof.
  intros Hp. split; intros Hx.
  - destruct (fixedLog2_runs x precision Hp Hx) as [v [Hv _]].
    destruct (fixedLoge_runs x precision Hp Hx) as [w [Hw _]].
    split; [exists v | exists w]; assumption.
  - rewrite fixedLog2_rejects, fixedLoge_rejects by assumption.
    repeat split; eexists; split; reflexivity.
Qed.

Lemma fixedLog_domain_witness :
  (succeeds (fixedLog2 (2 ^ 33) 32) /\ succeeds (fixedLoge (2 ^ 33) 32)) /\
  fails_with DomainError (fixedLoge 5 32).
Proof.
  split.
  - apply (proj1 (fixedLog_domain (2 ^ 33) 32 ltac:(lia))). lia.
  - apply (proj2 (fixedLog_domain 5 32 ltac:(lia))). lia.
Defined.

Lemma fixedLoge_at_one (_precision : Z) :
  0 <= _precision -> fixedLoge (2 ^ _precision) _precision = Ok 0.
Proof.
  intros Hp.
  rewrite (fixedLoge_value _ _ Hp (Z.le_refl _) 0 (fixedLog2_at_one _ Hp)).
  reflexivity.
Qed.

(** X8.  The logarithm of a ratio of one is zero: [ln n n precision = 0] for
    every non-zero [n] that fits the headroom check. *)
Theorem ln_of_equal_operands (n precision : Z) :
  0 <= precision -> 0 < n < 2 ^ (256 - precision) ->
  ln n n precision = Ok 0.
Proof.
  intros Hp Hn.
  assert (Hprec : 0 <= 256 - precision).
  { destruct (Z.lt_ge_cases (256 - precision) 0) as [Hneg | Hok]; [| exact Hok].
    rewrite Z.pow_neg_r in Hn by exact Hneg. lia. }
  rewrite ln_accepts by lia.
  rewrite Z.shiftl_mul_pow2 by exact Hp.
  rewrite Z.mul_comm, Z.div_mul by lia.
  apply fixedLoge_at_one. exact Hp.
Qed.

Lemma ln_of_equal_operands_witness : ln 12345 12345 40 = Ok 0.
Proof.
  apply (ln_of_equal_operands 12345 40); lia.
Defined.

Lemma ln_runs (_numerator _denominator _precision : Z) :
  0 <= _precision ->
  0 < _denominator -> _denominator <= _numerator ->
  _numerator < 2 ^ (256 - _precision) ->
  exists v, ln _numerator _denominator _precision = Ok v /\ 0 <= v.
Proof.
  intros Hp Hd Hle Hmax.
  assert (Hprec : 0 <= 256 - _precision).
  { destruct (Z.lt_ge_cases (256 - _precision) 0) as [Hneg | Hok]; [| exact Hok].
    rewrite Z.pow_neg_r in Hmax by exact Hneg. lia. }
  assert (HF : 0 < 2 ^ _precision) by (apply Z.pow_pos_nonneg; lia).
  rewrite ln_accepts by lia.
  apply fixedLoge_runs; [lia |].
  rewrite Z.shiftl_mul_pow2 by lia.
  apply Z.div_le_lower_bound; nia.
Qed.

(** X9.  For unsigned operands and a precision in [[0, 256]], [ln] returns
    a (non-negative) value exactly when [0 < denominator <= numerator <
    2^(256 - precision)], and fails with a [DomainError] otherwise. *)
Theorem ln_outcome (numerator denominator precision : Z) :
  0 <= precision <= 256 -> 0 <= numerator -> 0 <= denominator ->
  (0 < denominator /\ denominator <= numerator /\
   numerator < 2 ^ (256 - precision) ->
   exists v, ln numerator denominator precision = Ok v /\ 0 <= v) /\
  (~ (0 < denominator /\ denominator <= numerator /\
      numerator < 2 ^ (256 - precision)) ->
   fails_with DomainError (ln numerator denominator precision)).
Proof.
  intros Hp Hn Hd. split.
  - intros [Hd0 [Hle Hmax]]. apply ln_runs; lia.
  - intros Hbad. unfold ln, ONE.
    destruct (Z.leb_spec denominator numerator) as [Hle | Hgt].
    2:{ exists ln_ratio. now split. }
    cbn [assert bind].
    destruct (Z.eqb_spec denominator 0) as [Hd0 | Hd0].
    { exists ln_nonzero. now split. }
    destruct (Z.eqb_spec numerator 0) as [Hn0 | Hn0].
    { exists ln_nonzero. now split. }
    cbn [negb andb assert bind].
    rewrite shl_nonneg by lia. rewrite bind_Ok, Z.mul_1_l.
    rewrite assert_false by (apply Z.ltb_ge; lia).
    exists ln_numerator_max. now split.
Qed.

Lemma ln_outcome_witness :
  (exists v, ln 7 2 32 = Ok v /\ 0 <= v) /\
  fails_with DomainError (ln (2 ^ 224) 1 32).
Proof.
  split.
  - apply (proj1 (ln_outcome 7 2 32 ltac:(lia) ltac:(lia) ltac:(lia))). lia.
  - apply (proj2 (ln_outcome (2 ^ 224) 1 32 ltac:(lia) ltac:(lia) ltac:(lia))). lia.
Defined.

Lemma fixedLoge_errors (_x _precision : Z) (e : exn) :
  fixedLoge _x _precision = Raise e ->
  e = ValueError \/ e = AssertionError fixedLoge_one.
Proof.
  intros He.
  destruct (Z.lt_ge_cases _precision 0) as [Hneg | Hp].
  - unfold fixedLoge, shl in He.
    destruct (Z.ltb_spec _precision 0) as [_ | Hge]; [| lia].
    cbn [bind] in He. injection He as <-. now left.
  - destruct (Z.lt_ge_cases _x (2 ^ _precision)) as [Hx | Hx].
    + rewrite fixedLoge_rejects in He by assumption. injection He as <-. now right.
    + destruct (fixedLoge_runs _x _precision Hp Hx) as [v [Hv _]].
      rewrite Hv in He. discriminate.
Qed.

(** X10.  Whatever the integers it is given, [ln] never stops on its fourth
    assertion ([_denominator < MAX_VAL], implied by the first and the
    third), on the assertion of [fixedLog2], or on a division by zero. *)
Theorem ln_unreachable_failures (numerator denominator precision : Z) (e : exn) :
  ln numerator denominator precision = Raise e ->
  e <> AssertionError ln_denominator_max /\
  e <> AssertionError fixedLog2_one /\
  e <> ZeroDivisionError /\
  e <> LoopFuelExhausted.
Proof.
  unfold ln. intros He.
  destruct (Z.leb_spec denominator numerator) as [Hle | _];
    cbn [assert bind] in He;
    [| injection He as <-; repeat split; discriminate].
  destruct (Z.eqb_spec denominator 0) as [Hd0 | Hd0];
    cbn [negb andb assert bind] in He;
    [injection He as <-; repeat split; discriminate |].
  destruct (Z.eqb_spec numerator 0) as [Hn0 | Hn0];
    cbn [negb andb assert bind] in He;
    [injection He as <-; repeat split; discriminate |].
  unfold shl at 1 in He.
  destruct (256 - precision <? 0); cbn [bind] in He;
    [injection He as <-; repeat split; discriminate |].
  destruct (Z.ltb_spec numerator (Z.shiftl ONE (256 - precision))) as [Hnm | _];
    cbn [assert bind] in He;
    [| injection He as <-; repeat split; discriminate].
  destruct (Z.ltb_spec denominator (Z.shiftl ONE (256 - precision))) as [_ | Hdm];
    [| lia].
  cbn [assert bind] in He.
  unfold shl in He.
  destruct (precision <? 0); cbn [bind] in He;
    [injection He as <-; repeat split; discriminate |].
  unfold div in He.
  destruct (Z.eqb_spec denominator 0) as [Hz | _]; [contradiction |].
  cbn [bind] in He.
  apply fixedLoge_errors in He.
  destruct He as [-> | ->]; repeat split; discriminate.
Qed.

Lemma ln_unreachable_failures_witness :
  AssertionError ln_numerator_max <> AssertionError ln_denominator_max /\
  AssertionError ln_numerator_max <> AssertionError fixedLog2_one /\
  AssertionError ln_numerator_max <> ZeroDivisionError /\
  AssertionError ln_numerator_max <> LoopFuelExhausted.
Proof.
  apply (ln_unreachable_failures (2 ^ 224) (2 ^ 224) 32). reflexivity.
Defined.

(** X11.  At precision 32, for operands in [[1, 2^224)] with
    [denominator <= numerator], the result lies in the documented output
    range [[0, 0x9b43d4f8d6]]. *)
Theorem ln_output_range_32 (numerator denominator : Z) :
  0 < denominator -> denominator <= numerator -> numerator < 2 ^ 224 ->
  exists v, ln numerator denominator 32 = Ok v /\ 0 <= v <= 0x9b43d4f8d6.
Proof.
  intros Hd Hle Hmax.
  rewrite ln_accepts by (try change (2 ^ (256 - 32)) with (2 ^ 224); lia).
  rewrite Z.shiftl_mul_pow2 by lia.
  set (x := numerator * 2 ^ 32 / denominator).
  assert (Hx : 2 ^ 32 <= x < 2 ^ 256).
  { unfold x. split.
    - apply Z.div_le_lower_bound; nia.
    - apply Z.div_lt_upper_bound; [lia |].
      change (2 ^ 256) with (2 ^ 224 * 2 ^ 32). nia. }
  destruct (fixedLog2_bracket x 32 ltac:(lia) (proj1 Hx)) as [l [Hl Hbr]].
  assert (Hlo : 32 <= Z.log2 x) by (apply Z.log2_le_pow2; lia).
  assert (Hhi : Z.log2 x < 256) by (apply Z.log2_lt_pow2; lia).
  assert (Hrange : 0 <= l <= 0xdfffffffff).
  { change 0xdfffffffff with ((256 - 32) * 2 ^ 32 - 1). nia. }
  rewrite (fixedLoge_value x 32 ltac:(lia) (proj1 Hx) l Hl).
  eexists. split; [reflexivity |].
  rewrite Z.shiftr_div_pow2 by lia. split.
  - apply Z.div_pos; lia.
  - change 0x9b43d4f8d6 with (0xdfffffffff * 0xb17217f7d1cf78 / 2 ^ 56).
    apply Z.div_le_mono; lia.
Qed.

Lemma ln_output_range_32_witness :
  exists v, ln (2 ^ 224 - 1) 1 32 = Ok v /\ 0 <= v <= 0x9b43d4f8d6.
Proof.
  apply (ln_output_range_32 (2 ^ 224 - 1) 1); lia.
Defined.

(** ** fixedExpUnsafe and fixedExp: order and width *)

Lemma fixedExpUnsafe_coefficients_nonneg :
  Forall (fun c => 0 <= c) fixedExpUnsafe_coefficients.
Proof.
  unfold fixedExpUnsafe_coefficients.
  repeat (constructor; [lia |]). constructor.
Qed.

Lemma series_run_mono (x y p : Z) :
  0 <= x <= y -> 0 <= p -> series_le (series_run x p) (series_run y p).
Proof.
  intros Hxy Hp. unfold series_run.
  apply series_fold_mono; try assumption.
  - exact fixedExpUnsafe_coefficients_nonneg.
  - unfold series_le, series_start, below, fixedExpUnsafe_leading.
    cbn [fst snd]. rewrite Z.shiftl_mul_pow2 by exact Hp.
    assert (H2 : 0 < 2 ^ p) by (apply Z.pow_pos_nonneg; lia).
    repeat split; try nia.
    repeat (constructor; [unfold below; nia |]). constructor.
Qed.

(** X12.  [fixedExpUnsafe] is monotone: a larger non-negative argument never
    gives a smaller result. *)
Theorem fixedExpUnsafe_monotone (x y precision : Z) :
  0 <= x <= y -> 0 <= precision ->
  exists vx vy,
    fixedExpUnsafe x precision = Ok vx /\
    fixedExpUnsafe y precision = Ok vy /\
    0 <= vx <= vy.
Proof.
  intros Hxy Hp.
  rewrite !fixedExpUnsafe_series by exact Hp.
  destruct (series_run_mono x y precision Hxy Hp) as [_ [Hres _]].
  unfold below in Hres.
  do 2 eexists. split; [reflexivity |]. split; [reflexivity |].
  unfold fixedExpUnsafe_leading. split.
  - apply Z.div_pos; lia.
  - apply Z.div_le_mono; lia.
Qed.

Lemma fixedExpUnsafe_monotone_witness :
  exists vx vy,
    fixedExpUnsafe (2 ^ 32) 32 = Ok vx /\
    fixedExpUnsafe (2 ^ 33) 32 = Ok vy /\
    0 <= vx <= vy.
Proof.
  apply (fixedExpUnsafe_monotone (2 ^ 32) (2 ^ 33) 32); lia.
Defined.

Lemma series_fold_grows (x p : Z) (cs : list Z) :
  0 <= x -> 0 <= p -> Forall (fun c => 0 <= c) cs ->
  forall s,
    0 <= fst (fst s) ->
    snd (fst s) <= snd (fst (fold_left (series_step x p) cs s)).
Proof.
  intros Hx Hp Hcs. induction Hcs as [| c cs Hc _ IH]; intros s Hxi;
    cbn [fold_left].
  - lia.
  - destruct s as [[xi res] seen]. cbn [fst snd] in Hxi.
    assert (Hsh : 0 <= Z.shiftr (xi * x) p) by (apply Z.shiftr_nonneg; nia).
    etransitivity; [| apply IH; cbn [series_step fst snd]; exact Hsh].
    cbn [series_step fst snd]. nia.
Qed.

Lemma fixedExpUnsafe_at_least (_x _precision : Z) :
  0 <= _x -> 0 <= _precision ->
  exists v, fixedExpUnsafe _x _precision = Ok v /\ 2 ^ _precision + _x <= v.
Proof.
  intros Hx Hp.
  rewrite fixedExpUnsafe_series by exact Hp.
  eexists. split; [reflexivity |].
  pose proof (series_fold_grows _x _precision fixedExpUnsafe_coefficients Hx Hp
                fixedExpUnsafe_coefficients_nonneg
                (series_start _x _precision) Hx) as Hgrow.
  fold (series_run _x _precision) in Hgrow.
  unfold series_start in Hgrow. cbn [fst snd] in Hgrow.
  rewrite Z.shiftl_mul_pow2 in Hgrow by exact Hp.
  apply Z.div_le_lower_bound.
  - unfold fixedExpUnsafe_leading. lia.
  - lia.
Qed.

(** X13.  The result is at least [2^precision + x]: the series starts with
    the terms [1 + x] and every further term is non-negative. *)
Theorem fixedExpUnsafe_lower_bound (x precision : Z) :
  0 <= x -> 0 <= precision ->
  exists v, fixedExpUnsafe x precision = Ok v /\ 2 ^ precision + x <= v.
Proof.
  intros Hx Hp. now apply fixedExpUnsafe_at_least.
Qed.

Lemma fixedExpUnsafe_lower_bound_witness :
  exists v, fixedExpUnsafe 1000 32 = Ok v /\ 2 ^ 32 + 1000 <= v.
Proof.
  apply (fixedExpUnsafe_lower_bound 1000 32); lia.
Defined.

Lemma fixedExp_accepts (x precision : Z) :
  succeeds (fixedExp x precision) -> x <= fixedExp_maxExp precision.
Proof.
  intros [v Hv]. unfold fixedExp in Hv.
  destruct (Z.leb_spec x (fixedExp_maxExp precision)) as [Hle | Hgt];
    [exact Hle |].
  cbn [assert bind] in Hv. discriminate.
Qed.

Lemma fixedExp_maxExp_keeps_256_bits (_x _precision : Z) :
  In _precision [32; 34; 36; 38; 40; 42; 44; 46; 48; 50; 52; 54; 56; 58; 60; 62] ->
  0 <= _x <= fixedExp_maxExp _precision ->
  Forall (fun v => 0 <= v < 2 ^ 256) (fixedExpUnsafe_values _x _precision).
Proof.
  intros Hin Hx.
  assert (Hp : 0 <= _precision) by (cbn [In] in Hin; lia).
  apply Forall2_below_Forall
    with (l2 := fixedExpUnsafe_values (fixedExp_maxExp _precision) _precision).
  - apply fixedExpUnsafe_values_mono; lia.
  - apply Forall_forall. intros v Hv. apply Z.ltb_lt.
    revert v Hv. apply forallb_forall.
    cbn [In] in Hin.
    repeat (destruct Hin as [<- | Hin]; [vm_compute; reflexivity |]).
    contradiction.
Qed.

(** X14.  At each of the precisions 32, 34, ..., 62 the assertion of
    [fixedExp] keeps the computation within 256 bits: whenever
    [fixedExp x precision] returns for an [x >= 0], every product, term and
    partial sum computed by [fixedExpUnsafe] is below [2^256]. *)
Theorem fixedExp_guard_keeps_256_bits (x precision : Z) :
  In precision [32; 34; 36; 38; 40; 42; 44; 46; 48; 50; 52; 54; 56; 58; 60; 62] ->
  0 <= x -> succeeds (fixedExp x precision) ->
  Forall (fun v => 0 <= v < 2 ^ 256) (fixedExpUnsafe_values x precision).
Proof.
  intros Hin Hx Hok. apply fixedExp_accepts in Hok.
  apply fixedExp_maxExp_keeps_256_bits; [exact Hin | lia].
Qed.

Lemma fixedExp_guard_keeps_256_bits_witness :
  Forall (fun v => 0 <= v < 2 ^ 256) (fixedExpUnsafe_values 3277556015227 36).
Proof.
  apply (fixedExp_guard_keeps_256_bits 3277556015227 36).
  - cbn. tauto.
  - lia.
  - eexists. vm_compute. reflexivity.
Defined.

(** X15.  The precisions 32, 34, ..., 62 are the only ones in [[0, 64]] with
    that guarantee: at every other one the largest argument [fixedExp]
    accepts already makes a computed value reach [2^256]. *)
Theorem fixedExp_guard_other_precisions (precision : Z) :
  0 <= precision <= 64 ->
  ~ In precision [32; 34; 36; 38; 40; 42; 44; 46; 48; 50; 52; 54; 56; 58; 60; 62] ->
  exists x,
    0 <= x /\ succeeds (fixedExp x precision) /\
    Exists (fun v => 2 ^ 256 <= v) (fixedExpUnsafe_values x precision).
Proof.
  intros Hp Hnot.
  exists (fixedExp_maxExp precision).
  split; [apply fixedExp_maxExp_nonneg |]. split.
  - unfold fixedExp. rewrite assert_true by apply Z.leb_refl.
    rewrite bind_Ok, fixedExpUnsafe_series by lia. eexists. reflexivity.
  - assert (Hall :
      forallb
        (fun p =>
           existsb (Z.eqb p)
             [32; 34; 36; 38; 40; 42; 44; 46; 48; 50; 52; 54; 56; 58; 60; 62]
           || existsb (fun v => 2 ^ 256 <=? v)
                (fixedExpUnsafe_values (fixedExp_maxExp p) p))
        (range 65) = true) by (vm_compute; reflexivity).
    assert (Hin : In precision (range 65)).
    { rewrite range_seq. apply in_map_iff. exists (Z.to_nat precision).
      split; [lia |]. apply in_seq. lia. }
    rewrite forallb_forall in Hall. specialize (Hall precision Hin).
    apply orb_true_iff in Hall. destruct Hall as [Heven | Hwide].
    + apply existsb_exists in Heven. destruct Heven as [q [Hq Heq]].
      apply Z.eqb_eq in Heq. subst q. contradiction.
    + apply existsb_exists in Hwide. destruct Hwide as [v [Hv Hge]].
      apply Exists_exists. exists v. split; [exact Hv |].
      apply Z.leb_le. exact Hge.
Qed.

Lemma fixedExp_guard_other_precisions_witness :
  exists x,
    0 <= x /\ succeeds (fixedExp x 33) /\
    Exists (fun v => 2 ^ 256 <= v) (fixedExpUnsafe_values x 33).
Proof.
  apply (fixedExp_guard_other_precisions 33).
  - lia.
  - cbn [In]. lia.
Defined.

(** ** calculateBestPrecision and fixedExp *)

(** Both functions grow the bound the same way: two more units of precision
    are one more multiplication by [0xeb5ec5975959c565 / 2^62]. *)
Lemma fixedExp_maxExp_step (i : nat) :
  fixedExp_maxExp (32 + 2 * Z.of_nat (S i))
  = Z.shiftr (fixedExp_maxExp (32 + 2 * Z.of_nat i) * 0xeb5ec5975959c565) (64 - 2).
Proof.
  unfold fixedExp_maxExp, range3.
  replace ((32 + 2 * Z.of_nat (S i) - 32 + 2 - 1) / 2) with (Z.of_nat (S i)).
  2:{ apply Z.div_unique with (r := 1); lia. }
  replace ((32 + 2 * Z.of_nat i - 32 + 2 - 1) / 2) with (Z.of_nat i).
  2:{ apply Z.div_unique with (r := 1); lia. }
  rewrite !Nat2Z.id, seq_S, map_app, fold_left_app. reflexivity.
Qed.

(** The search loop, started at candidate [2 * a] with the bound of
    precision [32 + 2 * a]: it breaks at the first candidate whose scaled
    estimate exceeds the bound of [fixedExp] at that precision. *)
Lemma bestPrecision_loop_spec (maxVal _expD : Z) (k : nat) :
  _expD <> 0 ->
  forall (a : nat) r,
    bestPrecision_loop (map (fun i => 0 + 2 * Z.of_nat i) (seq a k))
      (fixedExp_maxExp (32 + 2 * Z.of_nat a)) maxVal _expD = Ok r ->
    match r with
    | Some q =>
        exists i, (a <= i < a + k)%nat /\ q = 2 * Z.of_nat i /\
          fixedExp_maxExp (32 + q) < Z.shiftl maxVal q / _expD /\
          forall j, (a <= j < i)%nat ->
            Z.shiftl maxVal (2 * Z.of_nat j) / _expD
            <= fixedExp_maxExp (32 + 2 * Z.of_nat j)
    | None =>
        forall j, (a <= j < a + k)%nat ->
          Z.shiftl maxVal (2 * Z.of_nat j) / _expD
          <= fixedExp_maxExp (32 + 2 * Z.of_nat j)
    end.
Proof.
  intros HD. induction k as [| k IH]; intros a r Hrun;
    cbn [seq map bestPrecision_loop] in Hrun.
  - injection Hrun as <-. intros j Hj. lia.
  - rewrite shl_Ok, bind_Ok in Hrun by lia.
    rewrite div_nonzero, bind_Ok in Hrun by exact HD.
    replace (0 + 2 * Z.of_nat a) with (2 * Z.of_nat a) in Hrun by lia.
    destruct (Z.ltb_spec (fixedExp_maxExp (32 + 2 * Z.of_nat a))
                         (Z.shiftl maxVal (2 * Z.of_nat a) / _expD))
      as [Hlt | Hge].
    + injection Hrun as <-. exists a.
      split; [lia |]. split; [reflexivity |]. split; [exact Hlt |].
      intros j Hj. lia.
    + rewrite <- fixedExp_maxExp_step in Hrun.
      apply IH in Hrun. destruct r as [q |].
      * destruct Hrun as [i [Hi [Hq [Hlt Hbefore]]]].
        exists i. split; [lia |]. split; [exact Hq |]. split; [exact Hlt |].
        intros j Hj.
        destruct (Nat.eq_dec j a) as [-> | Hne]; [exact Hge |].
        apply Hbefore. lia.
      * intros j Hj.
        destruct (Nat.eq_dec j a) as [-> | Hne]; [exact Hge |].
        apply Hrun. lia.
Qed.

Lemma calculateBestPrecision_spec (baseN baseD expN expD ub precision : Z) :
  expD <> 0 ->
  lnUpperBound32 baseN baseD = Ok ub ->
  calculateBestPrecision baseN baseD expN expD = Ok precision ->
  (exists j, (j < 16)%nat /\ precision = 32 + 2 * Z.of_nat j) /\
  ((Z.shiftl (ub * expN) (precision - 32) / expD <= fixedExp_maxExp precision /\
    (precision < 62 ->
     fixedExp_maxExp (precision + 2)
     < Z.shiftl (ub * expN) (precision + 2 - 32) / expD))
   \/ (precision = 32 /\
       fixedExp_maxExp 32 < Z.shiftl (ub * expN) (32 - 32) / expD)).
Proof.
  intros HD Hub Hrun. unfold calculateBestPrecision in Hrun.
  rewrite Hub, bind_Ok in Hrun. cbv zeta in Hrun.
  change (range3 0 32 2)
    with (map (fun i => 0 + 2 * Z.of_nat i) (seq 0 16)) in Hrun.
  change MAX_FIXED_EXP_32 with (fixedExp_maxExp (32 + 2 * Z.of_nat 0)) in Hrun.
  destruct (bestPrecision_loop _ _ (ub * expN) expD) as [r | e] eqn:Hloop;
    [| discriminate].
  apply (bestPrecision_loop_spec _ _ 16 HD) in Hloop.
  rewrite bind_Ok in Hrun. destruct r as [q |].
  - destruct Hloop as [i [Hi [Hq [Hlt Hbefore]]]].
    destruct (Z.eqb_spec q 0) as [Hq0 | Hq0]; injection Hrun as <-.
    + split; [exists 0%nat; split; [lia | reflexivity] |].
      right. split; [reflexivity |].
      rewrite Hq0 in Hlt. exact Hlt.
    + assert (Hi1 : (1 <= i)%nat) by lia.
      split; [exists (i - 1)%nat; split; lia |].
      left. split.
      * specialize (Hbefore (i - 1)%nat ltac:(lia)).
        replace (q + 32 - 2 - 32) with (2 * Z.of_nat (i - 1)) by lia.
        replace (q + 32 - 2) with (32 + 2 * Z.of_nat (i - 1)) by lia.
        exact Hbefore.
      * intros _.
        replace (q + 32 - 2 + 2 - 32) with q by lia.
        replace (q + 32 - 2 + 2) with (32 + q) by lia.
        exact Hlt.
  - injection Hrun as <-.
    split; [exists 15%nat; split; [lia | reflexivity] |].
    left. split; [| lia].
    apply (Hloop 15%nat). lia.
Qed.

(** X16.  The returned precision is where the search stops: the estimate
    [lnUpperBound32 * expN], scaled to the returned precision and divided by
    [expD], passes the bound [fixedExp] asserts at that precision, and (below
    62) exceeds the bound at the next precision.  The one exception is a
    result of 32 returned because the estimate exceeds the bound already at
    precision 32. *)
Theorem calculateBestPrecision_matches_fixedExp
        (baseN baseD expN expD ub precision : Z) :
  expD <> 0 ->
  lnUpperBound32 baseN baseD = Ok ub ->
  calculateBestPrecision baseN baseD expN expD = Ok precision ->
  let scaled p := Z.shiftl (ub * expN) (p - 32) / expD in
  (scaled precision <= fixedExp_maxExp precision /\
   (precision < 62 -> fixedExp_maxExp (precision + 2) < scaled (precision + 2)))
  \/ (precision = 32 /\ fixedExp_maxExp 32 < scaled 32).
Proof.
  intros HD Hub Hrun scaled.
  apply (calculateBestPrecision_spec baseN baseD expN expD ub precision HD Hub Hrun).
Qed.

Lemma calculateBestPrecision_matches_fixedExp_witness :
  let scaled p := Z.shiftl (Z.shiftl 1 32 * 45) (p - 32) / 1 in
  (scaled 36 <= fixedExp_maxExp 36 /\
   (36 < 62 -> fixedExp_maxExp (36 + 2) < scaled (36 + 2)))
  \/ (36 = 32 /\ fixedExp_maxExp 32 < scaled 32).
Proof.
  apply (calculateBestPrecision_matches_fixedExp 2 1 45 1 (Z.shiftl 1 32) 36).
  - lia.
  - reflexivity.
  - vm_compute. reflexivity.
Defined.

(** X17.  With a zero exponent numerator there is nothing to bound: the
    search never breaks and the highest precision, 62, is returned. *)
Theorem calculateBestPrecision_zero_exponent (baseN baseD expD : Z) :
  1 <= baseD -> baseN > baseD -> expD <> 0 ->
  calculateBestPrecision baseN baseD 0 expD = Ok 62.
Proof.
  intros HbD HbN HD.
  destruct (lnUpperBound32_runs baseN baseD HbD HbN) as [ub Hub].
  destruct (bestPrecision_loop_runs (ub * 0) expD (range3 0 32 2) HD)
    with (maxExp := MAX_FIXED_EXP_32) as [Hnone | [p [Hp Hsome]]].
  - intros p Hp. apply in_range3 in Hp; lia.
  - unfold calculateBestPrecision. rewrite Hub, bind_Ok. cbv zeta.
    rewrite Hnone, bind_Ok. reflexivity.
  - exfalso.
    change (range3 0 32 2)
      with (map (fun i => 0 + 2 * Z.of_nat i) (seq 0 16)) in Hsome.
    change MAX_FIXED_EXP_32 with (fixedExp_maxExp (32 + 2 * Z.of_nat 0)) in Hsome.
    apply (bestPrecision_loop_spec _ _ 16 HD) in Hsome.
    destruct Hsome as [i [_ [_ [Hlt _]]]].
    rewrite Z.mul_0_r, Z.shiftl_0_l, Z.div_0_l in Hlt by exact HD.
    pose proof (fixedExp_maxExp_nonneg (32 + p)). lia.
Qed.

Lemma calculateBestPrecision_zero_exponent_witness :
  calculateBestPrecision 1000 3 0 7 = Ok 62.
Proof.
  apply (calculateBestPrecision_zero_exponent 1000 3 7); lia.
Defined.

(** X18.  [calculateBestPrecision] needs a base strictly above one: with
    [baseN <= baseD] (in particular for the base [1/1] that [power]
    accepts) it stops on the domain assertion of [lnUpperBound32]. *)
Theorem calculateBestPrecision_rejects_base_le_one (baseN baseD expN expD : Z) :
  baseN <= baseD ->
  calculateBestPrecision baseN baseD expN expD
  = Raise (AssertionError lnUpperBound32_base) /\
  fails_with DomainError (calculateBestPrecision baseN baseD expN expD).
Proof.
  intros Hle.
  assert (Heq : calculateBestPrecision baseN baseD expN expD
                = Raise (AssertionError lnUpperBound32_base)).
  { unfold calculateBestPrecision, lnUpperBound32.
    rewrite assert_false by (rewrite Z.gtb_ltb; apply Z.ltb_ge; exact Hle).
    reflexivity. }
  split; [exact Heq |]. rewrite Heq.
  exists lnUpperBound32_base. now split.
Qed.

Lemma calculateBestPrecision_rejects_base_le_one_witness :
  calculateBestPrecision 1 1 1 2 = Raise (AssertionError lnUpperBound32_base) /\
  fails_with DomainError (calculateBestPrecision 1 1 1 2).
Proof.
  apply (calculateBestPrecision_rejects_base_le_one 1 1 1 2). lia.
Defined.

(** ** power *)

Lemma ln_result_nonneg (_numerator _denominator _precision l : Z) :
  0 <= _precision ->
  ln _numerator _denominator _precision = Ok l -> 0 <= l.
Proof.
  intros Hp Hl. unfold ln in Hl.
  destruct (assert ln_ratio _) in Hl; [| discriminate]. rewrite bind_Ok in Hl.
  destruct (assert ln_nonzero _) in Hl; [| discriminate]. rewrite bind_Ok in Hl.
  destruct (shl ONE _) in Hl; [| discriminate]. rewrite bind_Ok in Hl.
  destruct (assert ln_numerator_max _) in Hl; [| discriminate]. rewrite bind_Ok in Hl.
  destruct (assert ln_denominator_max _) in Hl; [| discriminate]. rewrite bind_Ok in Hl.
  destruct (shl _numerator _) in Hl; [| discriminate]. rewrite bind_Ok in Hl.
  destruct (div _ _) as [x |] in Hl; [| discriminate]. rewrite bind_Ok in Hl.
  destruct (Z.lt_ge_cases x (2 ^ _precision)) as [Hx | Hx].
  - rewrite fixedLoge_rejects in Hl by assumption. discriminate.
  - destruct (fixedLoge_runs x _precision Hp Hx) as [v [Hv Hv0]].
    rewrite Hv in Hl. injection Hl as <-. exact Hv0.
Qed.

(** X19.  Anything to the power zero is one: for an accepted base and a
    non-zero [expD], [power baseN baseD 0 expD precision] returns
    [2^precision]. *)
Theorem power_zero_exponent (baseN baseD expD precision : Z) :
  0 <= precision ->
  0 < baseD -> baseD <= baseN -> baseN < 2 ^ (256 - precision) ->
  expD <> 0 ->
  power baseN baseD 0 expD precision = Ok (2 ^ precision).
Proof.
  intros Hp HbD Hle Hmax HD.
  destruct (ln_runs baseN baseD precision Hp HbD Hle Hmax) as [l [Hl Hl0]].
  unfold power. rewrite Hl, bind_Ok.
  unfold safeMul. rewrite Z.mul_0_r.
  rewrite assert_true by reflexivity. rewrite !bind_Ok.
  rewrite div_nonzero by exact HD. rewrite bind_Ok, Z.div_0_l by exact HD.
  unfold fixedExp.
  rewrite assert_true by (apply Z.leb_le; apply fixedExp_maxExp_nonneg).
  rewrite bind_Ok.
  apply fixedExpUnsafe_zero. exact Hp.
Qed.

Lemma power_zero_exponent_witness : power 7 2 0 5 32 = Ok (2 ^ 32).
Proof.
  apply (power_zero_exponent 7 2 5 32); lia.
Defined.

(** X20.  A base of at least one raised to a non-negative exponent is at
    least one: whenever [power] returns, for [expN >= 0] and [expD > 0],
    the value is at least [2^precision]. *)
Theorem power_at_least_one (baseN baseD expN expD precision v : Z) :
  0 <= precision -> 0 <= expN -> 0 < expD ->
  power baseN baseD expN expD precision = Ok v ->
  2 ^ precision <= v.
Proof.
  intros Hp HN HD Hv. unfold power in Hv.
  destruct (ln baseN baseD precision) as [l |] eqn:Hl; [| discriminate].
  apply ln_result_nonneg in Hl; [| exact Hp].
  rewrite bind_Ok in Hv. unfold safeMul in Hv.
  destruct (assert safeMul_256 _) in Hv; [| discriminate].
  rewrite !bind_Ok in Hv.
  rewrite div_nonzero, bind_Ok in Hv by lia.
  unfold fixedExp in Hv.
  destruct (assert fixedExp_max _) in Hv; [| discriminate].
  rewrite bind_Ok in Hv.
  assert (He : 0 <= l * expN / expD) by (apply Z.div_pos; nia).
  destruct (fixedExpUnsafe_at_least (l * expN / expD) precision He Hp)
    as [w [Hw Hge]].
  rewrite Hw in Hv. injection Hv as <-. lia.
Qed.

Lemma power_at_least_one_witness : 2 ^ 32 <= 8589934589.
Proof.
  apply (power_at_least_one 4 1 1 2 32 8589934589); try lia.
  vm_compute. reflexivity.
Defined.

(** X21.  [power] refuses a base below one or with a zero operand: the
    [DomainError] of [ln] comes out unchanged, whatever the exponent. *)
Theorem power_rejects_base (baseN baseD expN expD precision : Z) :
  baseD > baseN \/ baseN = 0 \/ baseD = 0 ->
  fails_with DomainError (power baseN baseD expN expD precision).
Proof.
  intros H. unfold power, ln.
  destruct (Z.leb_spec baseD baseN) as [Hle | Hgt].
  - assert (Hz : negb (baseD =? 0) && negb (baseN =? 0) = false).
    { destruct H as [H | [-> | ->]]; [lia | |].
      - now rewrite andb_false_r.
      - reflexivity. }
    cbn [assert bind]. rewrite Hz. cbn [assert bind].
    exists ln_nonzero. now split.
  - exists ln_ratio. now split.
Qed.

Lemma power_rejects_base_witness :
  fails_with DomainError (power 1 2 1 1 32).
Proof.
  apply (power_rejects_base 1 2 1 1 32). left. reflexivity.
Defined.

(** ** lnUpperBound32: range *)

Lemma lnUpperBound32_at_most (_baseN _baseD ub : Z) :
  lnUpperBound32 _baseN _baseD = Ok ub ->
  0 < ub <= 256 * 0xb17217f8.
Proof.
  unfold lnUpperBound32. intros Hub.
  destruct (assert lnUpperBound32_base _) in Hub; [| discriminate].
  rewrite bind_Ok in Hub. cbv zeta in Hub.
  destruct (_baseN * 100000 <=? _baseD * 271828);
    [injection Hub as <-; vm_compute; split; [reflexivity | discriminate] |].
  destruct (_baseN * 100000 <=? _baseD * 738905);
    [injection Hub as <-; vm_compute; split; [reflexivity | discriminate] |].
  destruct (_baseN * 100000 <=? _baseD * 2008553);
    [injection Hub as <-; vm_compute; split; [reflexivity | discriminate] |].
  destruct (div _ _) as [q |] in Hub; [| discriminate].
  rewrite bind_Ok in Hub. injection Hub as <-.
  pose proof (floorLog2_range q). lia.
Qed.

(** X25.  For a non-zero [baseD], whenever [lnUpperBound32] returns, the
    value lies between [1 << 32] and [256 * 0xb17217f8]. *)
Theorem lnUpperBound32_output_range (baseN baseD ub : Z) :
  1 <= baseD ->
  lnUpperBound32 baseN baseD = Ok ub ->
  Z.shiftl 1 32 <= ub <= 256 * 0xb17217f8.
Proof.
  intros HD Hub.
  split; [| apply (lnUpperBound32_at_most baseN baseD ub Hub)].
  unfold lnUpperBound32 in Hub.
  destruct (Z.gtb_spec baseN baseD) as [HN | _];
    cbn [assert bind] in Hub; [| discriminate].
  destruct (Z.leb_spec (baseN * 100000) (baseD * 271828)) as [_ | _];
    [injection Hub as <-; vm_compute; discriminate |].
  destruct (Z.leb_spec (baseN * 100000) (baseD * 738905)) as [_ | _];
    [injection Hub as <-; vm_compute; discriminate |].
  destruct (Z.leb_spec (baseN * 100000) (baseD * 2008553)) as [_ | H3];
    [injection Hub as <-; vm_compute; discriminate |].
  rewrite div_nonzero, bind_Ok in Hub by lia. injection Hub as <-.
  assert (Hq : 20 <= (baseN - 1) / baseD) by (apply Z.div_le_lower_bound; lia).
  apply floorLog2_mono in Hq.
  change (floorLog2 20) with 4 in Hq.
  change (Z.shiftl 1 32) with 4294967296. lia.
Qed.

Lemma lnUpperBound32_output_range_witness :
  Z.shiftl 1 32 <= 20839311304 <= 256 * 0xb17217f8.
Proof.
  apply (lnUpperBound32_output_range 100 1 20839311304).
  - lia.
  - vm_compute. reflexivity.
Defined.

(** ** The computed logarithms against the real ones *)

Section RealLogarithms.
Local Open Scope R_scope.

Lemma exp_neg_lower_sound (P : Z) (m : nat) (xn xd : Z) :
  (0 <= P)%Z -> (0 <= xn)%Z -> (0 < xd)%Z ->
  (xn * 2 ^ P / (xd * 2 ^ Z.of_nat m) + 1 <= 2 ^ P)%Z ->
  IZR (exp_neg_lower P m xn xd) / IZR (2 ^ P) <= exp (- (IZR xn / IZR xd)).
Proof.
  intros HP Hxn Hxd Hsmall. unfold exp_neg_lower.
  pose proof (IZR_pow2_pos P HP) as HF.
  pose proof (IZR_pow2_pos (Z.of_nat m) (Nat2Z.is_nonneg m)) as HM.
  assert (HdR : 0 < IZR xd) by now apply IZR_lt.
  assert (Hden : (0 < xd * 2 ^ Z.of_nat m)%Z)
    by (apply Z.mul_pos_pos; [exact Hxd | apply Z.pow_pos_nonneg; lia]).
  replace (- (IZR xn / IZR xd)) with (- (IZR xn / IZR xd / 2 ^ m) * 2 ^ m).
  2:{ field. repeat split; try lra; apply pow_nonzero; lra. }
  apply square_down_sound; [exact HP | lia |].
  apply Rle_trans with (1 + - (IZR xn / IZR xd / 2 ^ m)); [| apply exp_ineq1_le].
  set (q := (xn * 2 ^ P / (xd * 2 ^ Z.of_nat m))%Z).
  assert (Hq : (xn * 2 ^ P < (q + 1) * (xd * 2 ^ Z.of_nat m))%Z).
  { unfold q.
    pose proof (Z.div_mod (xn * 2 ^ P) (xd * 2 ^ Z.of_nat m)) as Hdm.
    pose proof (Z.mod_pos_bound (xn * 2 ^ P) (xd * 2 ^ Z.of_nat m) Hden) as Hmod.
    nia. }
  apply IZR_lt in Hq. rewrite !mult_IZR, plus_IZR in Hq.
  rewrite <- (pow_IZR 2 m) in Hq.
  rewrite minus_IZR, plus_IZR.
  assert (Hm : 0 < 2 ^ m) by (apply pow_lt; lra).
  apply Rmult_le_reg_r with (IZR (2 ^ P) * (IZR xd * 2 ^ m)).
  { apply Rmult_lt_0_compat; [lra |]. now apply Rmult_lt_0_compat. }
  replace ((IZR (2 ^ P) - (IZR q + 1)) / IZR (2 ^ P)
           * (IZR (2 ^ P) * (IZR xd * 2 ^ m)))
    with ((IZR (2 ^ P) - (IZR q + 1)) * (IZR xd * 2 ^ m)) by (field; lra).
  replace ((1 + - (IZR xn / IZR xd / 2 ^ m)) * (IZR (2 ^ P) * (IZR xd * 2 ^ m)))
    with (IZR (2 ^ P) * (IZR xd * 2 ^ m) - IZR xn * IZR (2 ^ P))
    by (field; lra).
  lra.
Qed.

Lemma exp_neg_lower_check (P : Z) (m : nat) (xn xd num den : Z) :
  (0 <= P)%Z -> (0 <= xn)%Z -> (0 < xd)%Z -> (0 < den)%Z ->
  ((xn * 2 ^ P / (xd * 2 ^ Z.of_nat m) + 1 <=? 2 ^ P)
   && (num * 2 ^ P <=? den * exp_neg_lower P m xn xd))%Z = true ->
  IZR num / IZR den <= exp (- (IZR xn / IZR xd)).
Proof.
  intros HP Hxn Hxd Hden Hchk.
  apply andb_true_iff in Hchk. destruct Hchk as [Hsmall Hchk].
  apply Z.leb_le in Hsmall. apply Z.leb_le in Hchk.
  pose proof (IZR_pow2_pos P HP) as HF.
  assert (HdenR : 0 < IZR den) by now apply IZR_lt.
  apply Rle_trans with (IZR (exp_neg_lower P m xn xd) / IZR (2 ^ P));
    [| now apply exp_neg_lower_sound].
  apply IZR_le in Hchk. rewrite !mult_IZR in Hchk.
  apply Rmult_le_reg_r with (IZR den * IZR (2 ^ P)).
  - now apply Rmult_lt_0_compat.
  - replace (IZR num / IZR den * (IZR den * IZR (2 ^ P)))
      with (IZR num * IZR (2 ^ P)) by (field; lra).
    replace (IZR (exp_neg_lower P m xn xd) / IZR (2 ^ P)
             * (IZR den * IZR (2 ^ P)))
      with (IZR den * IZR (exp_neg_lower P m xn xd)) by (field; lra).
    exact Hchk.
Qed.

(** [0xb17217f7d1cf78] is [ln 2 * 2^56] rounded down. *)
Lemma ln2_scaled_lower : IZR 0xb17217f7d1cf78 <= Rpower.ln 2 * 2 ^ 56.
Proof.
  assert (H : IZR 1 / IZR 2 <= exp (- (IZR 0xb17217f7d1cf78 / IZR (2 ^ 56)))).
  { apply (exp_neg_lower_check 200 64); try lia. vm_compute. reflexivity. }
  apply ln_le_of_le_exp in H; [| lra].
  replace (IZR 1 / IZR 2) with (/ 2) in H by field.
  rewrite ln_Rinv in H by lra.
  replace (IZR (2 ^ 56)) with (2 ^ 56) in H by (rewrite pow_IZR; reflexivity).
  assert (Hpow : 0 < 2 ^ 56) by (apply pow_lt; lra).
  apply Rmult_le_reg_r with (/ 2 ^ 56); [now apply Rinv_0_lt_compat |].
  rewrite Rmult_assoc, Rinv_r, Rmult_1_r by lra.
  unfold Rdiv in H. lra.
Qed.


(** The result of [fixedLog2], times [ln 2], against the real logarithm. *)
Lemma fixedLog2_ln_bound (_x _precision l : Z) :
  (0 <= _precision)%Z -> (2 ^ _precision <= _x)%Z ->
  fixedLog2 _x _precision = Ok l ->
  (0 <= l)%Z /\
  IZR l * Rpower.ln 2
  <= IZR (2 ^ _precision) * Rpower.ln (IZR _x / IZR (2 ^ _precision)).
Proof.
  intros Hp Hx Hl.
  assert (HF : (0 < 2 ^ _precision)%Z) by (apply Z.pow_pos_nonneg; lia).
  rewrite fixedLog2_unfold in Hl by assumption.
  destruct (halving_loop_terminates (2 ^ _precision)
              (S (Z.to_nat (Z.log2 _x))) HF _x 0 Hx (log2_fuel _x))
    as [x1 [hi1 [Hrun1 [Hx1 Hhi1]]]].
  rewrite Hrun1, bind_Ok in Hl.
  pose proof (halving_loop_bound _ _ HF _ _ _ _ Hx Hrun1) as Hb1.
  destruct (squaring_loop_runs _precision (Z.to_nat _precision) Hp 0%nat x1 hi1)
    as [x2 [hi2 [Hrun2 [_ Hhi2]]]]; [reflexivity | exact Hx1 |].
  rewrite Hrun2, bind_Ok in Hl. injection Hl as <-.
  destruct (squaring_loop_bound _precision (Z.to_nat _precision) Hp
              0%nat x1 hi1 x2 hi2 eq_refl Hx1 Hrun2) as [Hx2 Hb2].
  rewrite pow_IZR, Z2Nat.id in Hb2 by exact Hp.
  pose proof (ln_ratio_nonneg x2 (2 ^ _precision) HF Hx2) as Hres.
  split; [lia | lra].
Qed.

Lemma fixedLoge_real_bound (_x _precision : Z) :
  (0 <= _precision)%Z -> (2 ^ _precision <= _x)%Z ->
  exists v,
    fixedLoge _x _precision = Ok v /\ (0 <= v)%Z /\
    IZR v <= Rpower.ln (IZR _x / IZR (2 ^ _precision)) * IZR (2 ^ _precision).
Proof.
  intros Hp Hx.
  destruct (fixedLog2_runs _x _precision Hp Hx) as [l [Hl _]].
  destruct (fixedLog2_ln_bound _x _precision l Hp Hx Hl) as [Hl0 Hbound].
  rewrite (fixedLoge_value _x _precision Hp Hx l Hl).
  eexists. split; [reflexivity |].
  rewrite Z.shiftr_div_pow2 by lia.
  split; [apply Z.div_pos; lia |].
  pose proof (IZR_div_floor (l * 0xb17217f7d1cf78) (2 ^ 56) ltac:(lia)) as Hfl.
  rewrite mult_IZR in Hfl.
  replace (IZR (2 ^ 56)) with (2 ^ 56) in Hfl by (rewrite pow_IZR; reflexivity).
  pose proof ln2_scaled_lower as Hln2.
  assert (Hpow : 0 < 2 ^ 56) by (apply pow_lt; lra).
  assert (HlR : 0 <= IZR l) by now apply IZR_le.
  apply Rle_trans with (IZR l * Rpower.ln 2); [| lra].
  apply Rle_trans with (IZR l * IZR 0xb17217f7d1cf78 / 2 ^ 56); [exact Hfl |].
  apply Rmult_le_reg_r with (2 ^ 56); [exact Hpow |].
  unfold Rdiv. rewrite Rmult_assoc, Rinv_l, Rmult_1_r by lra.
  rewrite Rmult_assoc. apply Rmult_le_compat_l; assumption.
Qed.

(** X22.  [fixedLoge] never overestimates: its result is at most
    [ln (x / 2^precision) * 2^precision], with [ln] the real natural
    logarithm. *)
Theorem fixedLoge_underestimates (x precision : Z) :
  (0 <= precision)%Z -> (2 ^ precision <= x)%Z ->
  exists v,
    fixedLoge x precision = Ok v /\
    IZR v <= Rpower.ln (IZR x / IZR (2 ^ precision)) * IZR (2 ^ precision).
Proof.
  intros Hp Hx.
  destruct (fixedLoge_real_bound x precision Hp Hx) as [v [Hv [_ Hb]]].
  exists v. now split.
Qed.

Lemma fixedLoge_underestimates_witness :
  exists v,
    fixedLoge (3 * 2 ^ 32) 32 = Ok v /\
    IZR v <= Rpower.ln (IZR (3 * 2 ^ 32) / IZR (2 ^ 32)) * IZR (2 ^ 32).
Proof.
  apply (fixedLoge_underestimates (3 * 2 ^ 32) 32); lia.
Defined.

Lemma ln_real_bound (_numerator _denominator _precision : Z) :
  (0 <= _precision)%Z ->
  (0 < _denominator)%Z -> (_denominator <= _numerator)%Z ->
  (_numerator < 2 ^ (256 - _precision))%Z ->
  exists v,
    ln _numerator _denominator _precision = Ok v /\ (0 <= v)%Z /\
    IZR v <= Rpower.ln (IZR _numerator / IZR _denominator) * IZR (2 ^ _precision).
Proof.
  intros Hp Hd Hle Hmax.
  assert (Hprec : (0 <= 256 - _precision)%Z).
  { destruct (Z.lt_ge_cases (256 - _precision) 0) as [Hneg | Hok]; [| exact Hok].
    rewrite Z.pow_neg_r in Hmax by exact Hneg. lia. }
  assert (HF : (0 < 2 ^ _precision)%Z) by (apply Z.pow_pos_nonneg; lia).
  rewrite ln_accepts by lia.
  rewrite Z.shiftl_mul_pow2 by lia.
  set (x := (_numerator * 2 ^ _precision / _denominator)%Z).
  assert (Hx : (2 ^ _precision <= x)%Z)
    by (unfold x; apply Z.div_le_lower_bound; nia).
  destruct (fixedLoge_real_bound x _precision Hp Hx) as [v [Hv [Hv0 Hb]]].
  exists v. split; [exact Hv |]. split; [exact Hv0 |].
  apply Rle_trans with (1 := Hb).
  pose proof (IZR_pow2_pos _precision Hp) as HFR.
  assert (HdR : 0 < IZR _denominator) by now apply IZR_lt.
  assert (HnR : 0 < IZR _numerator) by (apply IZR_lt; lia).
  assert (HxR : 0 < IZR x) by (apply IZR_lt; lia).
  apply Rmult_le_compat_r; [lra |].
  apply Rln_le; [now apply Rdiv_pos_pos |].
  pose proof (IZR_div_floor (_numerator * 2 ^ _precision) _denominator Hd) as Hfl.
  fold x in Hfl. rewrite mult_IZR in Hfl.
  apply Rmult_le_reg_r with (IZR (2 ^ _precision)); [exact HFR |].
  replace (IZR x / IZR (2 ^ _precision) * IZR (2 ^ _precision)) with (IZR x)
    by (field; lra).
  replace (IZR _numerator / IZR _denominator * IZR (2 ^ _precision))
    with (IZR _numerator * IZR (2 ^ _precision) / IZR _denominator)
    by (field; lra).
  exact Hfl.
Qed.

(** X23.  [ln] never overestimates: for accepted operands its result is at
    most [ln (numerator / denominator) * 2^precision], the "integer slightly
    smaller than ln(base) * 2 ^ precision" of the documentation. *)
Theorem ln_underestimates (numerator denominator precision : Z) :
  (0 <= precision)%Z ->
  (0 < denominator)%Z -> (denominator <= numerator)%Z ->
  (numerator < 2 ^ (256 - precision))%Z ->
  exists v,
    ln numerator denominator precision = Ok v /\
    IZR v <= Rpower.ln (IZR numerator / IZR denominator) * IZR (2 ^ precision).
Proof.
  intros Hp Hd Hle Hmax.
  destruct (ln_real_bound numerator denominator precision Hp Hd Hle Hmax)
    as [v [Hv [_ Hb]]].
  exists v. now split.
Qed.

Lemma ln_underestimates_witness :
  exists v,
    ln 7 2 40 = Ok v /\
    IZR v <= Rpower.ln (IZR 7 / IZR 2) * IZR (2 ^ 40).
Proof.
  apply (ln_underestimates 7 2 40); lia.
Defined.

(** The bound of [lnUpperBound32] in the form the comparisons below use. *)
Lemma lnUpperBound32_bounds_real_ln (baseN baseD : Z) :
  (1 <= baseD)%Z -> (baseN > baseD)%Z -> (baseN < 2 ^ 256)%Z ->
  exists v,
    lnUpperBound32 baseN baseD = Ok v /\
    Rpower.ln (IZR baseN / IZR baseD) * 2 ^ 32 <= IZR v.
Proof.
  intros HD HN Hmax. unfold lnUpperBound32.
  rewrite assert_true by (apply Z.gtb_lt; lia). rewrite bind_Ok. cbv zeta.
  assert (H32 : 0 < 2 ^ 32) by (apply pow_lt; lra).
  destruct (Z.leb_spec (baseN * 100000) (baseD * 271828)) as [H1 | H1].
  { eexists. split; [reflexivity |].
    change (Z.shiftl 1 32) with (1 * 2 ^ Z.of_nat 32)%Z.
    rewrite mult_IZR, <- pow_IZR.
    apply Rmult_le_compat_r; [lra |].
    apply ln_ratio_le with (num := 271828%Z); try lia. exact e1_lower. }
  destruct (Z.leb_spec (baseN * 100000) (baseD * 738905)) as [H2 | H2].
  { eexists. split; [reflexivity |].
    change (Z.shiftl 2 32) with (2 * 2 ^ Z.of_nat 32)%Z.
    rewrite mult_IZR, <- pow_IZR.
    apply Rmult_le_compat_r; [lra |].
    apply ln_ratio_le with (num := 738905%Z); try lia. exact e2_lower. }
  destruct (Z.leb_spec (baseN * 100000) (baseD * 2008553)) as [H3 | H3].
  { eexists. split; [reflexivity |].
    change (Z.shiftl 3 32) with (3 * 2 ^ Z.of_nat 32)%Z.
    rewrite mult_IZR, <- pow_IZR.
    apply Rmult_le_compat_r; [lra |].
    apply ln_ratio_le with (num := 2008553%Z); try lia. exact e3_lower. }
  rewrite div_nonzero by lia. rewrite bind_Ok.
  eexists. split; [reflexivity |].
  set (q := ((baseN - 1) / baseD)%Z).
  assert (Hq : (20 <= q < 2 ^ 256)%Z).
  { unfold q. split.
    - apply Z.div_le_lower_bound; lia.
    - apply Z.div_lt_upper_bound; nia. }
  assert (Hdm : (baseN - 1 < (q + 1) * baseD)%Z).
  { unfold q.
    pose proof (Z.div_mod (baseN - 1) baseD) as Hdm.
    pose proof (Z.mod_pos_bound (baseN - 1) baseD) as Hmod. nia. }
  rewrite floorLog2_log2 by lia.
  pose proof (Z.log2_spec q) as Hlog.
  pose proof (Z.log2_nonneg q) as Hk.
  set (k := Z.log2 q) in *.
  replace (Z.succ k) with (k + 1)%Z in Hlog by lia.
  assert (Hratio : IZR baseN / IZR baseD <= IZR (2 ^ (k + 1))).
  { apply IZR_ratio_le; nia. }
  assert (HdR : 0 < IZR baseD) by (apply IZR_lt; lia).
  assert (HnR : 0 < IZR baseN) by (apply IZR_lt; lia).
  apply Rln_le in Hratio; [| now apply Rdiv_pos_pos].
  rewrite ln_pow2 in Hratio by lia.
  rewrite mult_IZR.
  assert (Hk1 : 0 <= IZR (k + 1)) by (apply IZR_le; lia).
  pose proof ln2_scaled_upper as Hln2.
  apply Rle_trans with (IZR (k + 1) * Rpower.ln 2 * 2 ^ 32).
  - apply Rmult_le_compat_r; [lra | exact Hratio].
  - rewrite Rmult_assoc. apply Rmult_le_compat_l; assumption.
Qed.

Lemma ln_le_lnUpperBound32 (baseN baseD precision : Z) :
  (32 <= precision)%Z ->
  (1 <= baseD)%Z -> (baseD < baseN)%Z -> (baseN < 2 ^ (256 - precision))%Z ->
  exists v ub,
    ln baseN baseD precision = Ok v /\
    lnUpperBound32 baseN baseD = Ok ub /\
    (0 <= v <= Z.shiftl ub (precision - 32))%Z.
Proof.
  intros Hp HD HN Hmax.
  assert (Hprec : (0 <= 256 - precision)%Z).
  { destruct (Z.lt_ge_cases (256 - precision) 0) as [Hneg | Hok]; [| exact Hok].
    rewrite Z.pow_neg_r in Hmax by exact Hneg. lia. }
  assert (H256 : (baseN < 2 ^ 256)%Z).
  { apply Z.lt_le_trans with (1 := Hmax). apply Z.pow_le_mono_r; lia. }
  destruct (ln_real_bound baseN baseD precision ltac:(lia) ltac:(lia)
              ltac:(lia) Hmax) as [v [Hv [Hv0 Hb]]].
  destruct (lnUpperBound32_bounds_real_ln baseN baseD HD ltac:(lia) H256)
    as [ub [Hub Hbu]].
  exists v, ub. split; [exact Hv |]. split; [exact Hub |].
  split; [exact Hv0 |].
  rewrite Z.shiftl_mul_pow2 by lia.
  apply le_IZR. rewrite mult_IZR.
  apply Rle_trans with (1 := Hb).
  replace (2 ^ precision)%Z with (2 ^ 32 * 2 ^ (precision - 32))%Z
    by (rewrite <- Z.pow_add_r by lia; f_equal; lia).
  rewrite mult_IZR, <- Rmult_assoc.
  apply Rmult_le_compat_r.
  - left. apply IZR_pow2_pos. lia.
  - replace (IZR (2 ^ 32)) with (2 ^ 32) by (rewrite pow_IZR; reflexivity).
    exact Hbu.
Qed.

(** X24.  The planning bound dominates the computed logarithm: for a
    precision [>= 32] and operands [1 <= baseD < baseN < 2^(256 -
    precision)], [ln baseN baseD precision] is at most
    [lnUpperBound32 baseN baseD] rescaled from 32 to [precision] bits. *)
Theorem ln_below_lnUpperBound32 (baseN baseD precision : Z) :
  (32 <= precision)%Z ->
  (1 <= baseD)%Z -> (baseD < baseN)%Z -> (baseN < 2 ^ (256 - precision))%Z ->
  exists v ub,
    ln baseN baseD precision = Ok v /\
    lnUpperBound32 baseN baseD = Ok ub /\
    (0 <= v <= Z.shiftl ub (precision - 32))%Z.
Proof. apply ln_le_lnUpperBound32. Qed.

Lemma ln_below_lnUpperBound32_witness :
  exists v ub,
    ln 1000 3 40 = Ok v /\
    lnUpperBound32 1000 3 = Ok ub /\
    (0 <= v <= Z.shiftl ub (40 - 32))%Z.
Proof.
  apply (ln_below_lnUpperBound32 1000 3 40); lia.
Defined.

End RealLogarithms.

(** ** power with the precision chosen by calculateBestPrecision *)

(** X26.  The two halves fit together.  Let the base be above one
    ([1 <= baseD < baseN]), the exponent non-negative with [expN < 2^128],
    and let the planning estimate pass the bound at precision 32
    ([lnUpperBound32 * expN / expD <= MAX_FIXED_EXP_32]).  Then with the
    precision returned by [calculateBestPrecision], and a base that leaves
    that much headroom, [power] returns a value: no assertion fires, the
    value is at least [2^precision], and the exponential stays within 256
    bits. *)
Theorem power_with_best_precision
        (baseN baseD expN expD ub precision : Z) :
  1 <= baseD -> baseD < baseN -> 0 <= expN < 2 ^ 128 -> 1 <= expD ->
  lnUpperBound32 baseN baseD = Ok ub ->
  ub * expN / expD <= MAX_FIXED_EXP_32 ->
  calculateBestPrecision baseN baseD expN expD = Ok precision ->
  baseN < 2 ^ (256 - precision) ->
  exists l v,
    ln baseN baseD precision = Ok l /\
    power baseN baseD expN expD precision = Ok v /\
    2 ^ precision <= v /\
    Forall (fun w => 0 <= w < 2 ^ 256)
           (fixedExpUnsafe_values (l * expN / expD) precision).
Proof.
  intros HD HN HeN HeD Hub Hfit Hbest Hmax.
  destruct (calculateBestPrecision_spec baseN baseD expN expD ub precision
              ltac:(lia) Hub Hbest) as [[j [Hj HP]] Hstop].
  assert (Hin : In precision
                  [32; 34; 36; 38; 40; 42; 44; 46; 48; 50; 52; 54; 56; 58; 60; 62]).
  { subst precision. do 16 (destruct j as [| j]; [cbn; tauto |]). lia. }
  assert (Hp : 32 <= precision <= 62) by lia.
  destruct Hstop as [[Hscaled _] | [H32 Hover]].
  2:{ exfalso. rewrite fixedExp_maxExp_32 in Hover.
      change (32 - 32) with 0 in Hover. rewrite Z.shiftl_0_r in Hover. lia. }
  destruct (ln_le_lnUpperBound32 baseN baseD precision ltac:(lia) HD HN Hmax)
    as [l [ub' [Hl [Hub' Hle]]]].
  rewrite Hub in Hub'. injection Hub' as <-.
  rewrite Z.shiftl_mul_pow2 in Hle, Hscaled by lia.
  pose proof (lnUpperBound32_at_most baseN baseD ub Hub) as Hubmax.
  assert (Hpow : 0 < 2 ^ (precision - 32) <= 2 ^ 30).
  { split; [apply Z.pow_pos_nonneg; lia | apply Z.pow_le_mono_r; lia]. }
  assert (Hl70 : l < 2 ^ 70).
  { assert (ub * 2 ^ (precision - 32) <= 256 * 0xb17217f8 * 2 ^ 30).
    { apply Z.mul_le_mono_nonneg; lia. }
    assert (256 * 0xb17217f8 * 2 ^ 30 < 2 ^ 70) by reflexivity. lia. }
  assert (Hprod : l * expN < 2 ^ 256).
  { assert (l * expN <= 2 ^ 70 * 2 ^ 128) by (apply Z.mul_le_mono_nonneg; lia).
    assert (2 ^ 70 * 2 ^ 128 < 2 ^ 256) by reflexivity. lia. }
  assert (He : 0 <= l * expN / expD <= fixedExp_maxExp precision).
  { split; [apply Z.div_pos; nia |].
    apply Z.le_trans with (2 := Hscaled).
    apply Z.div_le_mono; [lia |].
    replace (ub * expN * 2 ^ (precision - 32))
      with (ub * 2 ^ (precision - 32) * expN) by ring.
    apply Z.mul_le_mono_nonneg_r; lia. }
  destruct (fixedExpUnsafe_at_least (l * expN / expD) precision
              (proj1 He) ltac:(lia)) as [v [Hv Hge]].
  exists l, v. split; [exact Hl |]. split.
  - unfold power. rewrite Hl, bind_Ok.
    unfold safeMul. rewrite Z.shiftl_1_l.
    rewrite assert_true by (apply Z.ltb_lt; exact Hprod).
    rewrite !bind_Ok, div_nonzero by lia. rewrite bind_Ok.
    unfold fixedExp.
    rewrite assert_true by (apply Z.leb_le; apply He).
    rewrite bind_Ok. exact Hv.
  - split; [lia |].
    apply fixedExp_maxExp_keeps_256_bits; assumption.
Qed.

Lemma power_with_best_precision_witness :
  exists l v,
    ln 2 1 36 = Ok l /\
    power 2 1 45 1 36 = Ok v /\
    2 ^ 36 <= v /\
    Forall (fun w => 0 <= w < 2 ^ 256)
           (fixedExpUnsafe_values (l * 45 / 1) 36).
Proof.
  apply (power_with_best_precision 2 1 45 1 (Z.shiftl 1 32) 36); try lia.
  - reflexivity.
  - vm_compute. discriminate.
  - vm_compute. reflexivity.
Defined.
